(** * The bilibili videos widget of glance

    A shallow embedding of [internal/glance/widget-bilibili-videos.go]:
    the widget's [initialize] and [update] methods, the feed aggregation
    [fetchBilibiliChannelUploads] with its per-item extraction, and
    [sortByNewest].

    Go values are modelled as follows.
    - [string] is a sequence of bytes: Rocq's [string].
    - [int] is [Z]; the only arithmetic on an [int] is [failed++], bounded
      by the length of a slice, so it never wraps.
    - a slice is a [list]; [nil] and the empty slice are both [[]].
    - an index or slice expression out of range panics: functions that can
      panic return a [result].
    - [error] is an [option] of an error value; [None] is [nil].
    - code that lives outside this file of the package (the worker pool,
      the widget base, the sentinel errors) and the Go standard library
      calls whose result depends on the outside world are parameters of a
      [Section]. *)

From Stdlib Require Import Ascii DecimalString DecimalPos DecimalZ.
From stdpp Require Import list strings sorting.

Local Open Scope Z_scope.

(** ** Go run-time behaviour *)

Inductive runtimeError : Type :=
| IndexOutOfRange (index : Z) (len : Z)
| SliceBoundsOutOfRange (bound : Z).

Inductive result (A : Type) : Type :=
| Returned (a : A)
| Panicked (e : runtimeError).

Arguments Returned {A} a.
Arguments Panicked {A} e.

Global Instance result_ret : MRet result := λ A a, Returned a.

Global Instance result_bind : MBind result := λ A B k r,
  match r with
  | Returned a => k a
  | Panicked e => Panicked e
  end.

(** [s[i]] on a slice. *)
Definition index {A} (s : list A) (i : nat) : result A :=
  match s !! i with
  | Some x => Returned x
  | None => Panicked (IndexOutOfRange (Z.of_nat i) (Z.of_nat (length s)))
  end.

(** ** [strings.Join] *)

Module strings.

(** The function as the standard library writes it: nothing for an empty
    slice, the element itself for a slice of one, otherwise a builder that
    receives the first element and then, for each further element, the
    separator and the element. *)
Definition Join (elems : list string) (sep : string) : string :=
  match elems with
  | [] => ""
  | [e] => e
  | e :: rest => fold_left (λ b s, (b +:+ sep) +:+ s) rest e
  end.

End strings.

(** ** Errors

    An error value is seen through [Error] and [Unwrap] only. [errors.New]
    builds an [errorString]; [fmt.Errorf] with one [%w] verb builds a
    [wrapError] around the wrapped error. *)

Module errors.

Inductive error : Type :=
| errorString (s : string)
| wrapError (msg : string) (err : error).

Global Instance error_eq_dec : EqDecision error.
Proof. solve_decision. Defined.

Definition Error (e : error) : string :=
  match e with
  | errorString s => s
  | wrapError msg _ => msg
  end.

Definition Unwrap (e : error) : option error :=
  match e with
  | errorString _ => None
  | wrapError _ err => Some err
  end.

End errors.

Module fmt.
Import errors.

(** The verb [%d] on an [int]. *)
Definition verb_d (n : Z) : string := NilZero.string_of_int (Z.to_int n).

(** [fmt.Errorf("%w: %v", w, v)] with two errors. *)
Definition Errorf_w_v (w v : error) : error :=
  wrapError (Error w +:+ ": " +:+ Error v) w.

(** [fmt.Errorf("%w: missing videos from %d channels", w, n)]. *)
Definition Errorf_missing_videos (w : error) (n : Z) : error :=
  wrapError (Error w +:+ ": missing videos from " +:+ verb_d n +:+ " channels") w.

End fmt.

(** ** The thumbnail pattern

    [regexp.MustCompile] of the pattern

      <img[^>]+src=Q([^Q]+)Q          (Q stands for the double quote)

    and [FindAllStringSubmatch] on it. Go's [regexp] returns the leftmost
    match and, among the matches that start there, the one a backtracking
    search finds first; both [+] are greedy. The matcher below is that
    backtracking search written out for this pattern. The literals of the
    pattern are ASCII and each class excludes one ASCII byte, so matching
    bytes and matching UTF-8 runes find the same matches. *)

Module regexp.

(** The byte 0x22, the double quote. *)
Definition dquote : ascii := "034"%char.

Definition isGT (c : ascii) : bool := Ascii.eqb c ">".
Definition isQuote (c : ascii) : bool := Ascii.eqb c dquote.
Definition isLT (c : ascii) : bool := Ascii.eqb c "<".
Definition isEq (c : ascii) : bool := Ascii.eqb c "=".

Definition lit_img : string := "<img".
Definition lit_src : string := Eval cbv in "src=" +:+ String dquote "".
Definition lit_quote : string := String dquote "".

(** The literal [lit] at the start of [s]: what follows it. *)
Fixpoint literal (lit s : string) : option string :=
  match lit, s with
  | EmptyString, _ => Some s
  | String a lit', String b s' =>
      if Ascii.eqb a b then literal lit' s' else None
  | String _ _, EmptyString => None
  end.

(** [([^Q]+)Q] at the start of [s]: the capture and what follows the
    closing quote. The run takes one more byte whenever it can. *)
Fixpoint capture (s : string) : option (string * string) :=
  match s with
  | EmptyString => None
  | String c s' =>
      if isQuote c then None
      else
        match capture s' with
        | Some (u, rest) => Some (String c u, rest)
        | None =>
            match literal lit_quote s' with
            | Some rest => Some (String c "", rest)
            | None => None
            end
        end
  end.

(** [src=Q([^Q]+)Q] at the start of [s]. *)
Definition srcAttr (s : string) : option (string * string) :=
  match literal lit_src s with
  | Some t => capture t
  | None => None
  end.

(** [[^>]*src=Q([^Q]+)Q] at the start of [s]: the bytes the class
    consumed, the capture and the rest. The star takes one more byte
    whenever it can and gives it back only if the rest then fails. *)
Fixpoint attrsStar (s : string) : option (string * string * string) :=
  let here :=
    match srcAttr s with
    | Some (u, rest) => Some ("", u, rest)
    | None => None
    end in
  match s with
  | EmptyString => here
  | String c s' =>
      if isGT c then here
      else
        match attrsStar s' with
        | Some (a, u, rest) => Some (String c a, u, rest)
        | None => here
        end
  end.

(** The whole pattern anchored at the start of [s]: [<img], one byte of
    the class, then the star. *)
Definition matchHere (s : string) : option (string * string * string) :=
  match literal lit_img s with
  | Some (String c t) =>
      if isGT c then None
      else
        match attrsStar t with
        | Some (a, u, rest) => Some (String c a, u, rest)
        | None => None
        end
  | _ => None
  end.

(** One match in a text: the text before it, the bytes taken by [[^>]+],
    the capture group, and the text after the match. *)
Record found : Type := Found {
  before : string;
  attrs : string;
  group1 : string;
  after : string;
}.

(** The matched text (submatch 0). *)
Definition group0 (m : found) : string :=
  lit_img +:+ attrs m +:+ lit_src +:+ group1 m +:+ lit_quote.

(** The leftmost match of the pattern in [s]. *)
Fixpoint search (s : string) : option found :=
  match matchHere s with
  | Some (a, u, rest) => Some (Found "" a u rest)
  | None =>
      match s with
      | EmptyString => None
      | String c s' =>
          match search s' with
          | Some m =>
              Some (Found (String c (before m)) (attrs m) (group1 m) (after m))
          | None => None
          end
      end
  end.

(** The loop of [FindAllStringSubmatch]: at most [n] matches, each search
    starting where the previous match ended (a match of this pattern is
    never empty). *)
Fixpoint allMatches (n : nat) (s : string) : list found :=
  match n with
  | O => []
  | S n' =>
      match search s with
      | Some m => m :: allMatches n' (after m)
      | None => []
      end
  end.

(** [re.FindAllStringSubmatch(s, n)]: one slice per match, holding the
    matched text and the capture group. A negative [n] asks for all
    matches; the library then sets [n = len(s) + 1]. *)
Definition FindAllStringSubmatch (s : string) (n : Z) : list (list string) :=
  let n := if n <? 0 then S (String.length s) else Z.to_nat n in
  (λ m, [group0 m; group1 m]) <$> allMatches n s.

(** Every byte of [s] satisfies [p]. *)
Fixpoint all (p : ascii → bool) (s : string) : bool :=
  match s with
  | EmptyString => true
  | String c s' => p c && all p s'
  end.

(** Every [<] of [s] is followed by a byte other than [i]: no [<img]
    starts in [s], whatever follows [s]. *)
Fixpoint noImgOpen (s : string) : bool :=
  match s with
  | EmptyString => true
  | String c s' =>
      (negb (isLT c)
       || match s' with
          | String d _ => negb (Ascii.eqb d "i")
          | EmptyString => false
          end)
      && noImgOpen s'
  end.

(** What the pattern says of a match: [a], the text of [[^>]+], is not
    empty and holds no [>]; [u], the text of the group, is not empty and
    holds no double quote. *)
Definition denotes (a u : string) : Prop :=
  a ≠ "" ∧ all (negb ∘ isGT) a = true ∧
  u ≠ "" ∧ all (negb ∘ isQuote) u = true.

(** [m] is an occurrence of the pattern in [s]. *)
Definition occursIn (m : found) (s : string) : Prop :=
  s = before m +:+ group0 m +:+ after m ∧ denotes (attrs m) (group1 m).

End regexp.

(** ** [time.Time]

    An instant (seconds and nanoseconds) together with the zone offset it
    was written in. The timestamps of a decoded feed carry no monotonic
    clock reading, so [After] compares the instants. *)

Module time.

Record Time : Type := {
  sec : Z;
  nsec : Z;
  offset : Z;
}.

Definition After (t u : Time) : bool :=
  (sec t >? sec u) || ((sec t =? sec u) && (nsec t >? nsec u)).

(** A [time.Duration] counts nanoseconds. *)
Definition Hour : Z := 3600 * 1000000000.

End time.

(** ** [sort.Slice]

    The library sorts the slice in place by swapping elements and promises
    a sorted result, not a stable one; which algorithm runs depends on the
    length of the slice and on the Go release. The model is the contract:
    the result is a rearrangement of the slice, and for a [less] that is a
    strict weak ordering no element is less than one before it. In Go
    [less] receives two indices and reads the elements at them; here it
    receives the two elements. *)

Module sort.

Record StrictWeakOrder {A} (less : A → A → bool) : Prop := {
  less_irrefl a : less a a = false;
  less_trans a b c : less a b = true → less b c = true → less a c = true;
  less_incomparable_trans a b c :
    less a b = false → less b c = false → less a c = false;
}.

Class Sorter : Type := {
  Slice : ∀ {A}, list A → (A → A → bool) → list A;
  Slice_Permutation {A} (x : list A) less : Slice x less ≡ₚ x;
  Slice_sorted {A} (x : list A) less :
    StrictWeakOrder less →
    StronglySorted (λ a b, less b a = false) (Slice x less);
}.

(** The insertion sort the library runs on short slices: each element in
    turn is swapped towards the front while it is less than the element
    before it. [sorted] holds the sorted front part, last element first. *)
Fixpoint insert {A} (less : A → A → bool) (x : A) (sorted : list A) : list A :=
  match sorted with
  | [] => [x]
  | y :: sorted' =>
      if less x y then y :: insert less x sorted' else x :: sorted
  end.

Definition insertionSort {A} (x : list A) (less : A → A → bool) : list A :=
  reverse (fold_left (λ sorted a, insert less a sorted) x []).

End sort.

(** ** The feed and the videos *)

(** An element of [Items[_].Authors]. *)
Record feedAuthor : Type := {
  Name : string;
}.

(** An element of [bilibiliFeedResponseJson.Items]. *)
Module feedItem.
Record t : Type := {
  ID : string;
  URL : string;
  Title : string;
  ContentHTML : string;
  DatePublished : time.Time;
  Authors : list feedAuthor;
}.
End feedItem.

Module bilibiliFeedResponseJson.
Record t : Type := {
  Version : string;
  Title : string;
  HomePageURL : string;
  Description : string;
  Language : string;
  Items : list feedItem.t;
}.
End bilibiliFeedResponseJson.

Module bilibiliVideo.
Record t : Type := {
  ThumbnailUrl : string;
  Title : string;
  Url : string;
  Author : string;
  AuthorUrl : string;
  TimePosted : time.Time;
}.
End bilibiliVideo.

Definition bilibiliVideoList : Type := list bilibiliVideo.t.

(** What [workerPoolDo] returns: the results and the errors, one slot per
    unit of work, and the error of the pool itself. *)
Record poolResult : Type := {
  responses : list bilibiliFeedResponseJson.t;
  errs : list (option errors.error);
  err : option errors.error;
}.

(** The [less] function that [sortByNewest] hands to [sort.Slice]. *)
Definition newer (a b : bilibiliVideo.t) : bool :=
  time.After (bilibiliVideo.TimePosted a) (bilibiliVideo.TimePosted b).

(** *** One feed item (the body of the inner loop) *)

(** The loop over [matches]: [match[1]] is appended when [len(match) > 1],
    that is, when the slice has an element at index 1. *)
Definition imageURLs (v : feedItem.t) : list string :=
  let matches := regexp.FindAllStringSubmatch (feedItem.ContentHTML v) (-1) in
  fold_left
    (λ imageURLs match_,
       match match_ !! 1%nat with
       | Some url => imageURLs ++ [url]
       | None => imageURLs
       end)
    matches [].

(** [for i, author := range v.Authors { authorNames[i] = author.Name }]. *)
Fixpoint rangeAuthors (i : nat) (authors : list feedAuthor)
    (authorNames : list string) : list string :=
  match authors with
  | [] => authorNames
  | author :: authors' =>
      rangeAuthors (S i) authors' (<[i := Name author]> authorNames)
  end.

Definition authorNames (v : feedItem.t) : list string :=
  rangeAuthors 0 (feedItem.Authors v)
    (replicate (length (feedItem.Authors v)) "").

(** The video appended for the item [v]; [imageURLs[0]] panics when the
    pattern found nothing. *)
Definition video (imageProxy : string) (v : feedItem.t) : result bilibiliVideo.t :=
  let imageURLs := imageURLs v in
  let authorNames := authorNames v in
  imageURL ← index imageURLs 0;
  mret {|
    bilibiliVideo.ThumbnailUrl := imageProxy +:+ imageURL;
    bilibiliVideo.Title := feedItem.Title v;
    bilibiliVideo.Url := feedItem.URL v;
    bilibiliVideo.Author := strings.Join authorNames ", ";
    bilibiliVideo.AuthorUrl := feedItem.URL v;
    bilibiliVideo.TimePosted := feedItem.DatePublished v;
  |}.

(** [for j := range response.Items { ...; videos = append(videos, ...) }]. *)
Fixpoint rangeItems (imageProxy : string) (items : list feedItem.t)
    (videos : bilibiliVideoList) : result bilibiliVideoList :=
  match items with
  | [] => mret videos
  | v :: items' =>
      entry ← video imageProxy v;
      rangeItems imageProxy items' (videos ++ [entry])
  end.

(** [for i := range responses { ... }], from index [i] on, with the
    responses not yet visited. A failed source is counted and logged; the
    log call reads [RSSHubUrls[i]] and [errs[i]], and its output is not
    part of the model. *)
Fixpoint rangeResponses (RSSHubUrls : list string)
    (errs : list (option errors.error)) (imageProxy : string)
    (i : nat) (responses : list bilibiliFeedResponseJson.t)
    (videos : bilibiliVideoList) (failed : Z)
    : result (bilibiliVideoList * Z) :=
  match responses with
  | [] => mret (videos, failed)
  | response :: responses' =>
      e ← index errs i;
      match e with
      | Some _ =>
          _ ← index RSSHubUrls i;
          rangeResponses RSSHubUrls errs imageProxy (S i) responses'
            videos (failed + 1)
      | None =>
          videos ← rangeItems imageProxy
                     (bilibiliFeedResponseJson.Items response) videos;
          rangeResponses RSSHubUrls errs imageProxy (S i) responses'
            videos failed
      end
  end.

(** ** The widget and the aggregation

    The parameters of the section are what the rest of the package and the
    standard library supply:
    - [http.NewRequest], which parses the URL and returns a nil request
      with an error when it cannot;
    - [workerPoolDo] on the job built from the JSON decoding task, the
      default HTTP client and the requests, with the given number of
      workers; its result stands for what the network answered;
    - the sentinel errors [errNoContent] and [errPartialContent];
    - the embedded [widgetBase] with the methods the widget calls on it;
    - [context.Context], which [update] receives and does not use;
    - [sort.Slice]. *)

Section glance.

Variable Request : Type.
Variable http_NewRequest : string → string → option Request * option errors.error.
Variable workerPoolDo : Z → list (option Request) → poolResult.
Variable errNoContent errPartialContent : errors.error.
Variable widgetBase : Type.
Variable withTitle : widgetBase → string → widgetBase.
Variable withCacheDuration : widgetBase → Z → widgetBase.
Variable canContinueUpdateAfterHandlingErr :
  widgetBase → option errors.error → widgetBase * bool.
Variable context_Context : Type.
Context {sorter : sort.Sorter}.

Record bilibiliVideosWidget : Type := {
  base : widgetBase;
  Videos : bilibiliVideoList;
  VideoUrlTemplate : string;
  Style : string;
  CollapseAfter : Z;
  CollapseAfterRows : Z;
  RSSHubUrls : list string;
  Limit : Z;
  IncludeShorts : bool;
  ImageProxy : string;
}.

Definition with_base (b : widgetBase) (w : bilibiliVideosWidget) :=
  {| base := b; Videos := Videos w; VideoUrlTemplate := VideoUrlTemplate w;
     Style := Style w; CollapseAfter := CollapseAfter w;
     CollapseAfterRows := CollapseAfterRows w; RSSHubUrls := RSSHubUrls w;
     Limit := Limit w; IncludeShorts := IncludeShorts w;
     ImageProxy := ImageProxy w |}.

Definition with_Videos (v : bilibiliVideoList) (w : bilibiliVideosWidget) :=
  {| base := base w; Videos := v; VideoUrlTemplate := VideoUrlTemplate w;
     Style := Style w; CollapseAfter := CollapseAfter w;
     CollapseAfterRows := CollapseAfterRows w; RSSHubUrls := RSSHubUrls w;
     Limit := Limit w; IncludeShorts := IncludeShorts w;
     ImageProxy := ImageProxy w |}.

Definition with_CollapseAfter (n : Z) (w : bilibiliVideosWidget) :=
  {| base := base w; Videos := Videos w; VideoUrlTemplate := VideoUrlTemplate w;
     Style := Style w; CollapseAfter := n;
     CollapseAfterRows := CollapseAfterRows w; RSSHubUrls := RSSHubUrls w;
     Limit := Limit w; IncludeShorts := IncludeShorts w;
     ImageProxy := ImageProxy w |}.

Definition with_CollapseAfterRows (n : Z) (w : bilibiliVideosWidget) :=
  {| base := base w; Videos := Videos w; VideoUrlTemplate := VideoUrlTemplate w;
     Style := Style w; CollapseAfter := CollapseAfter w;
     CollapseAfterRows := n; RSSHubUrls := RSSHubUrls w;
     Limit := Limit w; IncludeShorts := IncludeShorts w;
     ImageProxy := ImageProxy w |}.

Definition with_Limit (n : Z) (w : bilibiliVideosWidget) :=
  {| base := base w; Videos := Videos w; VideoUrlTemplate := VideoUrlTemplate w;
     Style := Style w; CollapseAfter := CollapseAfter w;
     CollapseAfterRows := CollapseAfterRows w; RSSHubUrls := RSSHubUrls w;
     Limit := n; IncludeShorts := IncludeShorts w;
     ImageProxy := ImageProxy w |}.

Definition with_ImageProxy (p : string) (w : bilibiliVideosWidget) :=
  {| base := base w; Videos := Videos w; VideoUrlTemplate := VideoUrlTemplate w;
     Style := Style w; CollapseAfter := CollapseAfter w;
     CollapseAfterRows := CollapseAfterRows w; RSSHubUrls := RSSHubUrls w;
     Limit := Limit w; IncludeShorts := IncludeShorts w;
     ImageProxy := p |}.

(** [sort.Slice] works in place, so after the call the receiver's slice is
    the sorted one: the model returns it. *)
Definition sortByNewest (v : bilibiliVideoList) : bilibiliVideoList :=
  sort.Slice v newer.

(** The first loop of [fetchBilibiliChannelUploads]: one request per
    URL; the error of [http.NewRequest] is dropped and its request, nil or
    not, is appended. *)
Definition requests (RSSHubUrls : list string) : list (option Request) :=
  fold_left
    (λ requests feedUrl,
       let '(request, _) := http_NewRequest "GET" feedUrl in
       requests ++ [request])
    RSSHubUrls [].

Definition fetchBilibiliChannelUploads (RSSHubUrls : list string)
    (videoUrlTemplate : string) (includeShorts : bool) (imageProxy : string)
    : result (bilibiliVideoList * option errors.error) :=
  let requests := requests RSSHubUrls in
  let out := workerPoolDo 30 requests in
  match err out with
  | Some err => mret ([], Some (fmt.Errorf_w_v errNoContent err))
  | None =>
      '(videos, failed) ←
        rangeResponses RSSHubUrls (errs out) imageProxy 0 (responses out)
          [] 0;
      if Z.of_nat (length videos) =? 0 then mret ([], Some errNoContent)
      else
        let videos := sortByNewest videos in
        if failed >? 0 then
          mret (videos,
                Some (fmt.Errorf_missing_videos errPartialContent failed))
        else mret (videos, None)
  end.

Definition initialize (widget : bilibiliVideosWidget)
    : bilibiliVideosWidget * option errors.error :=
  let widget :=
    with_base (withCacheDuration (withTitle (base widget) "Videos") time.Hour)
      widget in
  let widget :=
    if Limit widget <=? 0 then with_Limit 25 widget else widget in
  let widget :=
    if (CollapseAfterRows widget =? 0) || (CollapseAfterRows widget <? -1)
    then with_CollapseAfterRows 4 widget else widget in
  let widget :=
    if (CollapseAfter widget =? 0) || (CollapseAfter widget <? -1)
    then with_CollapseAfter 7 widget else widget in
  let widget :=
    if bool_decide (ImageProxy widget = "")
    then with_ImageProxy "//wsrv.nl/?url=" widget else widget in
  (widget, None).

(** [videos[:limit]] for a [limit] below [len(videos)]: only a negative
    bound is out of range. *)
Definition sliceTo (videos : bilibiliVideoList) (limit : Z)
    : result bilibiliVideoList :=
  if limit <? 0 then
    Panicked (SliceBoundsOutOfRange limit)
  else mret (take (Z.to_nat limit) videos).

Definition update (widget : bilibiliVideosWidget) (ctx : context_Context)
    : result bilibiliVideosWidget :=
  '(videos, err) ←
    fetchBilibiliChannelUploads (RSSHubUrls widget) (VideoUrlTemplate widget)
      (IncludeShorts widget) (ImageProxy widget);
  let '(base, continue) := canContinueUpdateAfterHandlingErr (base widget) err in
  let widget := with_base base widget in
  if negb continue then mret widget
  else
    videos ←
      (if Z.of_nat (length videos) >? Limit widget
       then sliceTo videos (Limit widget) else mret videos);
    mret (with_Videos videos widget).

End glance.

(** ** The aggregation in the words of the specification

    The definitions below are not translations of code: they say what the
    specification says the code computes, and the properties compare the
    two. *)

(** The entry of an item: the capture of the first match of the pattern
    behind the proxy prefix, the author names joined with a comma and a
    space, the other fields carried over. An item without a match has no
    entry. *)
Definition entryOf (imageProxy : string) (v : feedItem.t)
    : option bilibiliVideo.t :=
  m ← regexp.search (feedItem.ContentHTML v);
  Some {|
    bilibiliVideo.ThumbnailUrl := imageProxy +:+ regexp.group1 m;
    bilibiliVideo.Title := feedItem.Title v;
    bilibiliVideo.Url := feedItem.URL v;
    bilibiliVideo.Author := String.concat ", " (Name <$> feedItem.Authors v);
    bilibiliVideo.AuthorUrl := feedItem.URL v;
    bilibiliVideo.TimePosted := feedItem.DatePublished v;
  |}.

(** A source as the aggregation sees it: the decoded feed and the error
    slot. *)
Definition source : Type := bilibiliFeedResponseJson.t * option errors.error.

(** The sources of a pool result, in the order of the URLs. *)
Definition sources (r : poolResult) : list source :=
  zip (responses r) (errs r).

(** The number of sources whose error slot is set. *)
Definition failedCount (srcs : list source) : Z :=
  Z.of_nat (length (filter (λ s : source, is_Some (s.2)) srcs)).

(** The raw items a source contributes: all of them, or none when its
    error slot is set. *)
Definition rawItems (s : source) : list feedItem.t :=
  match s.2 with
  | Some _ => []
  | None => bilibiliFeedResponseJson.Items (s.1)
  end.

(** The merged collection before it is sorted: the entries of the raw
    items of all sources, in order; none if some item has no entry. *)
Definition merged (imageProxy : string) (srcs : list source)
    : option bilibiliVideoList :=
  mapM (entryOf imageProxy) (srcs ≫= rawItems).

(** What one source contributes: nothing when its error slot is set,
    otherwise the entries of all its raw items, in order. *)
Definition contributes (imageProxy : string) (s : source)
    (entries : bilibiliVideoList) : Prop :=
  match s.2 with
  | Some _ => entries = []
  | None =>
      mapM (entryOf imageProxy) (bilibiliFeedResponseJson.Items (s.1))
        = Some entries
  end.

(** [a] may stand before [b] in a list sorted newest first: [b] was not
    posted after [a]. *)
Definition notOlder (a b : bilibiliVideo.t) : Prop :=
  let ta := bilibiliVideo.TimePosted a in
  let tb := bilibiliVideo.TimePosted b in
  time.sec tb < time.sec ta ∨
  (time.sec tb = time.sec ta ∧ time.nsec tb ≤ time.nsec ta).

(** The pool kept its contract: one response slot and one error slot per
    URL. *)
Definition aligned (RSSHubUrls : list string) (r : poolResult) : Prop :=
  length (responses r) = length RSSHubUrls ∧
  length (errs r) = length RSSHubUrls.

(** * Properties *)

(** ** [newer] orders the videos *)

Lemma newer_StrictWeakOrder : sort.StrictWeakOrder newer.
Proof.
  split; unfold newer, time.After; intros; lia.
Qed.

Lemma newer_false a b : newer b a = false ↔ notOlder a b.
Proof. unfold newer, notOlder, time.After. simpl. lia. Qed.

(** ** Strings *)

Lemma string_app_cons c s t : String c s +:+ t = String c (s +:+ t).
Proof. reflexivity. Qed.

Lemma string_app_nil_r s : s +:+ "" = s.
Proof. induction s as [|c s IH]; [done|]. by rewrite string_app_cons, IH. Qed.

Lemma string_app_assoc s t u : (s +:+ t) +:+ u = s +:+ (t +:+ u).
Proof. induction s as [|c s IH]; [done|]. by rewrite !string_app_cons, IH. Qed.

Lemma string_length_app s t :
  String.length (s +:+ t) = (String.length s + String.length t)%nat.
Proof.
  induction s as [|c s IH]; [done|].
  rewrite string_app_cons. simpl. by rewrite IH.
Qed.

Lemma string_app_inv p1 x1 p2 x2 :
  p1 +:+ x1 = p2 +:+ x2 → String.length p1 = String.length p2 →
  p1 = p2 ∧ x1 = x2.
Proof.
  revert p2. induction p1 as [|c p1 IH]; intros [|c' p2] Heq Hlen;
    try done.
  rewrite !string_app_cons in Heq. injection Heq as -> Heq.
  injection Hlen as Hlen. by destruct (IH _ Heq Hlen) as [-> ->].
Qed.

(** ** The failed count can be read back from the error *)

Lemma verb_d_inj n n' : fmt.verb_d n = fmt.verb_d n' → n = n'.
Proof.
  assert (Hnorm : ∀ z, Z.to_int z ≠ Decimal.Pos Decimal.Nil ∧
                       Z.to_int z ≠ Decimal.Neg Decimal.Nil).
  { intros [|p|p]; simpl; split; try done;
      intros [= H]; by apply Unsigned.to_uint_nonnil in H. }
  unfold fmt.verb_d. intros H%(f_equal NilZero.int_of_string).
  destruct (Hnorm n), (Hnorm n').
  rewrite !NilZero.isi in H by done. injection H as H.
  apply (f_equal Z.of_int) in H. by rewrite !DecimalZ.of_to in H.
Qed.

Lemma Errorf_missing_videos_inj w n n' :
  fmt.Errorf_missing_videos w n = fmt.Errorf_missing_videos w n' → n = n'.
Proof.
  unfold fmt.Errorf_missing_videos. intros [= H].
  do 2 apply String.app_inj in H.
  assert (String.length (fmt.verb_d n) = String.length (fmt.verb_d n')) as Hlen.
  { apply (f_equal String.length) in H. rewrite !string_length_app in H. lia. }
  apply verb_d_inj. by destruct (string_app_inv _ _ _ _ H Hlen).
Qed.

(** ** The matcher finds the leftmost-first match of the pattern *)

Section regexp_facts.
Import regexp.

Lemma literal_Some lit s t : literal lit s = Some t ↔ s = lit +:+ t.
Proof.
  revert s. induction lit as [|a lit IH]; intros s.
  - change ("" +:+ t) with t. destruct s; simpl; split; congruence.
  - rewrite string_app_cons. destruct s as [|b s]; simpl; [split; congruence|].
    destruct (Ascii.eqb_spec a b) as [->|Hne].
    + rewrite IH. split; congruence.
    + split; congruence.
Qed.

Lemma capture_sound s u rest :
  capture s = Some (u, rest) →
  s = u +:+ lit_quote +:+ rest ∧ u ≠ "" ∧ all (negb ∘ isQuote) u = true.
Proof.
  revert u rest. induction s as [|c s IH]; intros u rest; [done|].
  cbn [capture]. destruct (isQuote c) eqn:Hc; [done|].
  destruct (capture s) as [[u' rest']|] eqn:Hs.
  - intros [= <- <-]. destruct (IH _ _ eq_refl) as (-> & ? & Hu).
    rewrite string_app_cons. simpl. by rewrite Hc, Hu.
  - destruct (literal lit_quote s) as [rest'|] eqn:Hq; [|done].
    intros [= <- <-]. apply literal_Some in Hq as ->.
    simpl. by rewrite Hc.
Qed.

Lemma capture_complete u rest :
  u ≠ "" → all (negb ∘ isQuote) u = true →
  capture (u +:+ lit_quote +:+ rest) = Some (u, rest).
Proof.
  induction u as [|c u IH]; [done|]. intros _ Hu. simpl in Hu.
  apply andb_true_iff in Hu as [Hc Hu]. apply negb_true_iff in Hc.
  rewrite string_app_cons. cbn [capture]. rewrite Hc.
  destruct u as [|c' u].
  - change ("" +:+ lit_quote +:+ rest) with (String dquote rest).
    cbn [capture]. change (isQuote dquote) with true. cbv iota.
    by rewrite (proj2 (literal_Some lit_quote (String dquote rest) rest) eq_refl).
  - by rewrite IH.
Qed.

Lemma srcAttr_sound s u rest :
  srcAttr s = Some (u, rest) →
  s = lit_src +:+ u +:+ lit_quote +:+ rest ∧
  u ≠ "" ∧ all (negb ∘ isQuote) u = true.
Proof.
  unfold srcAttr. destruct (literal lit_src s) as [t|] eqn:Ht; [|done].
  apply literal_Some in Ht as ->. intros Hc.
  by destruct (capture_sound _ _ _ Hc) as (-> & ? & ?).
Qed.

Lemma srcAttr_complete u rest :
  u ≠ "" → all (negb ∘ isQuote) u = true →
  srcAttr (lit_src +:+ u +:+ lit_quote +:+ rest) = Some (u, rest).
Proof.
  intros Hu Hq. unfold srcAttr.
  rewrite (proj2 (literal_Some lit_src _ _) eq_refl).
  by apply capture_complete.
Qed.

Lemma attrsStar_sound s a u rest :
  attrsStar s = Some (a, u, rest) →
  s = a +:+ lit_src +:+ u +:+ lit_quote +:+ rest ∧
  all (negb ∘ isGT) a = true ∧ u ≠ "" ∧ all (negb ∘ isQuote) u = true.
Proof.
  assert (Hhere : ∀ s a u rest,
    match srcAttr s with
    | Some (u, rest) => Some ("", u, rest)
    | None => None
    end = Some (a, u, rest) →
    s = a +:+ lit_src +:+ u +:+ lit_quote +:+ rest ∧
    all (negb ∘ isGT) a = true ∧ u ≠ "" ∧ all (negb ∘ isQuote) u = true).
  { clear. intros s a u rest. destruct (srcAttr s) as [[u' rest']|] eqn:Hs; [|done].
    intros [= <- <- <-]. by destruct (srcAttr_sound _ _ _ Hs) as (-> & ? & ?). }
  revert a u rest. induction s as [|c s IH]; intros a u rest.
  - apply Hhere.
  - cbn [attrsStar]. destruct (isGT c) eqn:Hc; [apply Hhere|].
    destruct (attrsStar s) as [[[a' u'] rest']|] eqn:Hs; [|apply Hhere].
    intros [= <- <- <-]. destruct (IH _ _ _ eq_refl) as (-> & Ha & ? & ?).
    rewrite string_app_cons. simpl. by rewrite Hc, Ha.
Qed.

Lemma attrsStar_complete a' t u' rest' :
  all (negb ∘ isGT) a' = true → srcAttr t = Some (u', rest') →
  ∃ a u rest, attrsStar (a' +:+ t) = Some (a, u, rest) ∧
    (String.length a' ≤ String.length a)%nat.
Proof.
  intros Ha Ht. induction a' as [|c a' IH].
  - change ("" +:+ t) with t. destruct t as [|c t].
    + by vm_compute in Ht.
    + cbn [attrsStar]. rewrite Ht. destruct (isGT c).
      * eexists _, _, _. split; [done|]. simpl. lia.
      * destruct (attrsStar t) as [[[a u] rest]|];
          eexists _, _, _; (split; [done|]); simpl; lia.
  - simpl in Ha. apply andb_true_iff in Ha as [Hc Ha]. apply negb_true_iff in Hc.
    destruct (IH Ha) as (a & u & rest & Hs & Hlen).
    rewrite string_app_cons. cbn [attrsStar]. rewrite Hc, Hs.
    eexists _, _, _. split; [done|]. simpl. lia.
Qed.

Lemma matchHere_sound s a u rest :
  matchHere s = Some (a, u, rest) →
  s = lit_img +:+ a +:+ lit_src +:+ u +:+ lit_quote +:+ rest ∧ denotes a u.
Proof.
  unfold matchHere. destruct (literal lit_img s) as [[|c t]|] eqn:Hs; [done| |done].
  apply literal_Some in Hs as ->.
  destruct (isGT c) eqn:Hc; [done|].
  destruct (attrsStar t) as [[[a' u'] rest']|] eqn:Ht; [|done].
  intros [= <- <- <-].
  destruct (attrsStar_sound _ _ _ _ Ht) as (-> & Ha & Hu & Hq).
  split; [by rewrite string_app_cons|].
  split_and!; [done| |done|done]. simpl. by rewrite Hc, Ha.
Qed.

Lemma matchHere_complete a' u' rest' :
  denotes a' u' →
  ∃ a u rest,
    matchHere (lit_img +:+ a' +:+ lit_src +:+ u' +:+ lit_quote +:+ rest')
      = Some (a, u, rest) ∧
    (String.length a' ≤ String.length a)%nat.
Proof.
  intros (Ha0 & Ha & Hu0 & Hu). unfold matchHere.
  rewrite (proj2 (literal_Some lit_img _ _) eq_refl).
  destruct a' as [|c a']; [done|]. simpl in Ha.
  apply andb_true_iff in Ha as [Hc Ha]. apply negb_true_iff in Hc.
  rewrite string_app_cons, Hc.
  destruct (attrsStar_complete a' _ u' rest' Ha (srcAttr_complete u' rest' Hu0 Hu))
    as (a & u & rest & -> & Hlen).
  eexists _, _, _. split; [done|]. simpl. lia.
Qed.

Lemma search_sound s m : search s = Some m → occursIn m s.
Proof.
  revert m. induction s as [|c s IH]; intros m.
  - by vm_compute.
  - cbn [search].
    destruct (matchHere (String c s)) as [[[a u] rest]|] eqn:Hh.
    + intros [= <-]. destruct (matchHere_sound _ _ _ _ Hh) as [Heq ?].
      split; [|done]. unfold group0. cbn [before attrs group1 after].
      change ("" +:+ ?x) with x. by rewrite !string_app_assoc.
    + destruct (search s) as [m'|]; [|done]. intros [= <-].
      destruct (IH _ eq_refl) as [Hs ?]. split; [|done].
      cbn [before after]. rewrite string_app_cons. by rewrite Hs at 1.
Qed.

(** No occurrence starts before the one found, and none that starts at
    the same place gives more bytes to the first class. *)
Lemma search_leftmost_first s m' :
  occursIn m' s →
  ∃ m, search s = Some m ∧
    (String.length (before m) ≤ String.length (before m'))%nat ∧
    (String.length (before m) = String.length (before m') →
     String.length (attrs m') ≤ String.length (attrs m))%nat.
Proof.
  destruct m' as [pre' a' u' rest']. intros [Hs Hd]. cbn in Hs, Hd |- *.
  unfold group0 in Hs. cbn in Hs. rewrite !string_app_assoc in Hs.
  revert s Hs. induction pre' as [|c pre' IH]; intros s ->.
  - change ("" +:+ ?x) with x.
    destruct (matchHere_complete a' u' rest' Hd) as (a & u & rest & Hh & Hlen).
    exists (Found "" a u rest). split; [|by simpl; auto].
    destruct (lit_img +:+ a' +:+ lit_src +:+ u' +:+ lit_quote +:+ rest');
      cbn [search]; by rewrite Hh.
  - rewrite string_app_cons. cbn [search].
    destruct (matchHere _) as [[[a u] rest]|].
    + eexists. split; [done|]. simpl. split; [lia|done].
    + destruct (IH _ eq_refl) as (m & -> & Hle & Hsame).
      eexists. split; [done|]. simpl. split; [lia|]. intros [= ?]. auto.
Qed.

(** Where an occurrence starts and how long its first class runs decide
    the occurrence: the group is the longest run without a quote. *)
Lemma occursIn_unique s m m' :
  occursIn m s → occursIn m' s →
  String.length (before m) = String.length (before m') →
  String.length (attrs m) = String.length (attrs m') →
  m = m'.
Proof.
  destruct m as [b a u r], m' as [b' a' u' r'].
  unfold occursIn, group0. cbn [before attrs group1 after].
  rewrite !string_app_assoc.
  intros [-> (_ & _ & Hu & Hq)] [Heq (_ & _ & Hu' & Hq')] Hb Ha.
  apply string_app_inv in Heq as [<- Heq]; [|done].
  apply string_app_inv in Heq as [_ Heq]; [|done].
  apply string_app_inv in Heq as [<- Heq]; [|done].
  apply string_app_inv in Heq as [_ Heq]; [|done].
  pose proof (capture_complete u r Hu Hq) as H1.
  pose proof (capture_complete u' r' Hu' Hq') as H2.
  rewrite Heq, H2 in H1. by injection H1 as <- <-.
Qed.

Lemma search_None s : search s = None ↔ ∀ m, ¬ occursIn m s.
Proof.
  split.
  - intros Hn m Hm. destruct (search_leftmost_first _ _ Hm) as (? & ? & _).
    congruence.
  - intros Hn. destruct (search s) as [m|] eqn:Hs; [|done].
    destruct (Hn m). by apply search_sound.
Qed.

(** A match is at least twelve bytes long, so the text after it is
    shorter than the text searched. *)
Lemma search_after_shorter s m :
  search s = Some m → (String.length (after m) + 12 ≤ String.length s)%nat.
Proof.
  intros [-> (Ha & _ & Hu & _)]%search_sound. unfold group0.
  rewrite !string_length_app.
  destruct (attrs m); [done|]. destruct (group1 m); [done|]. simpl. lia.
Qed.

Lemma allMatches_S n s :
  allMatches (S n) s =
    match search s with
    | Some m => m :: allMatches n (after m)
    | None => []
    end.
Proof. reflexivity. Qed.

(** The bound [len(s) + 1] on the number of matches never cuts the list:
    more rounds find nothing more. *)
Lemma allMatches_enough n s :
  (String.length s ≤ n)%nat → allMatches (S n) s = allMatches n s.
Proof.
  revert s. induction n as [|n IH]; intros s Hn.
  - destruct s; [done|simpl in Hn; lia].
  - rewrite (allMatches_S (S n)), (allMatches_S n).
    destruct (search s) as [m|] eqn:Hs; [|done].
    apply search_after_shorter in Hs. f_equal. apply IH. lia.
Qed.

Lemma FindAllStringSubmatch_all s :
  FindAllStringSubmatch s (-1) =
    (λ m, [group0 m; group1 m]) <$> allMatches (S (String.length s)) s.
Proof. reflexivity. Qed.

End regexp_facts.

(** ** An image tag that ends with its [src] attribute

    For a tag of the form [<img ATTRS src=QURLQ TAIL>] the pattern captures
    URL, provided URL holds no quote and no [=] and TAIL holds no [=]: no
    later [src=Q] can then take the place of this one. *)

Section regexp_simple_tag.
Import regexp.

Lemma all_app p s t : all p (s +:+ t) = all p s && all p t.
Proof.
  induction s as [|c s IH]; [done|].
  rewrite string_app_cons. simpl. by rewrite IH, andb_assoc.
Qed.

Lemma split_before_char (P : ascii → bool) a b c x d :
  a +:+ b = c +:+ String x d → all P a = true → P x = false →
  ∃ r, c = a +:+ r ∧ b = r +:+ String x d.
Proof.
  revert c. induction a as [|y a IH]; intros c Heq Ha Hx.
  - exists c. by split.
  - simpl in Ha. apply andb_true_iff in Ha as [Hy Ha].
    destruct c as [|z c].
    + change ("" +:+ ?s) with s in Heq. rewrite string_app_cons in Heq.
      injection Heq as -> _. congruence.
    + rewrite !string_app_cons in Heq. injection Heq as -> Heq.
      destruct (IH _ Heq Ha Hx) as (r & -> & ->). by exists r.
Qed.

Lemma char_not_in_suffix x c y p q :
  x +:+ String c y = p +:+ q →
  all (λ d, negb (Ascii.eqb d c)) q = true →
  (String.length x < String.length p)%nat.
Proof.
  revert x. induction p as [|e p IH]; intros x Heq Hq.
  - change ("" +:+ q) with q in Heq. subst q.
    rewrite all_app in Hq. simpl in Hq. rewrite Ascii.eqb_refl in Hq.
    simpl in Hq. by rewrite andb_false_r in Hq.
  - destruct x as [|e' x]; [simpl; lia|].
    rewrite !string_app_cons in Heq. injection Heq as _ Heq.
    specialize (IH _ Heq Hq). simpl. lia.
Qed.

Lemma attrsStar_no_later_src url tail rest :
  all (negb ∘ isEq) url = true → all (negb ∘ isEq) tail = true →
  rest = "" ∨ (∃ rest', rest = String ">" rest') →
  attrsStar ("rc=" +:+ lit_quote +:+ url +:+ lit_quote +:+ tail +:+ rest) = None.
Proof.
  intros Hurl Htail Hrest.
  destruct (attrsStar _) as [[[a u] r]|] eqn:Hs; [exfalso|done].
  apply attrsStar_sound in Hs as (Heq & Ha & _ & _).
  assert (∃ r', "rc=" +:+ lit_quote +:+ url +:+ lit_quote +:+ tail
                = a +:+ lit_src +:+ r') as [r' Hr'].
  { destruct Hrest as [->|[rest' ->]].
    - rewrite string_app_nil_r in Heq. eauto.
    - assert (H1 : a +:+ (lit_src +:+ u +:+ lit_quote +:+ r) =
                ("rc=" +:+ lit_quote +:+ url +:+ lit_quote +:+ tail)
                  +:+ String ">" rest').
      { rewrite <- Heq. by rewrite !string_app_assoc. }
      apply (split_before_char (negb ∘ isGT)) in H1 as (r1 & Hc & Hb);
        [|done|done].
      apply (split_before_char (negb ∘ isGT)) in Hb as (r2 & -> & _);
        [|done|done].
      by exists r2. }
  assert (H2 : (a +:+ "src") +:+ String "=" (lit_quote +:+ r') =
               "rc=" +:+ (lit_quote +:+ url +:+ lit_quote +:+ tail)).
  { rewrite string_app_assoc. exact (eq_sym Hr'). }
  apply char_not_in_suffix in H2.
  - rewrite string_length_app in H2. simpl in H2. lia.
  - change (λ d, negb (Ascii.eqb d "=")) with (negb ∘ isEq).
    rewrite !all_app, Hurl, Htail. done.
Qed.

Lemma attrsStar_last_src url tail rest :
  url ≠ "" → all (negb ∘ isQuote) url = true →
  all (negb ∘ isEq) url = true → all (negb ∘ isEq) tail = true →
  rest = "" ∨ (∃ rest', rest = String ">" rest') →
  attrsStar (lit_src +:+ url +:+ lit_quote +:+ tail +:+ rest)
    = Some ("", url, tail +:+ rest).
Proof.
  intros Hu Hq Hurl Htail Hrest.
  pose proof (srcAttr_complete url (tail +:+ rest) Hu Hq) as Hsrc.
  change (lit_src +:+ ?s) with (String "s" ("rc=" +:+ lit_quote +:+ s)) in *.
  cbn [attrsStar]. change (isGT "s") with false. cbv iota.
  rewrite (attrsStar_no_later_src url tail rest Hurl Htail Hrest).
  by rewrite Hsrc.
Qed.

Lemma attrsStar_app_prefix a0 s a u rest :
  all (negb ∘ isGT) a0 = true → attrsStar s = Some (a, u, rest) →
  attrsStar (a0 +:+ s) = Some (a0 +:+ a, u, rest).
Proof.
  intros Ha0 Hs. induction a0 as [|c a0 IH]; [done|].
  simpl in Ha0. apply andb_true_iff in Ha0 as [Hc Ha0].
  apply negb_true_iff in Hc.
  rewrite !string_app_cons. cbn [attrsStar]. by rewrite Hc, (IH Ha0).
Qed.

Lemma matchHere_simple_tag a url tail rest :
  a ≠ "" → all (negb ∘ isGT) a = true →
  url ≠ "" → all (negb ∘ isQuote) url = true →
  all (negb ∘ isEq) url = true → all (negb ∘ isEq) tail = true →
  rest = "" ∨ (∃ rest', rest = String ">" rest') →
  matchHere
    (lit_img +:+ a +:+ lit_src +:+ url +:+ lit_quote +:+ tail +:+ rest)
    = Some (a, url, tail +:+ rest).
Proof.
  intros Ha0 Ha Hu Hq Hurl Htail Hrest. unfold matchHere.
  rewrite (proj2 (literal_Some lit_img _ _) eq_refl).
  destruct a as [|c a]; [done|]. simpl in Ha.
  apply andb_true_iff in Ha as [Hc Ha]. apply negb_true_iff in Hc.
  rewrite string_app_cons, Hc.
  rewrite (attrsStar_app_prefix a _ "" url (tail +:+ rest) Ha
             (attrsStar_last_src url tail rest Hu Hq Hurl Htail Hrest)).
  by rewrite string_app_nil_r.
Qed.

Lemma search_skip pre s a u rest :
  noImgOpen pre = true → matchHere s = Some (a, u, rest) →
  search (pre +:+ s) = Some (Found pre a u rest).
Proof.
  intros Hpre Hs. induction pre as [|c pre IH].
  - change ("" +:+ s) with s. destruct s; cbn [search]; by rewrite Hs.
  - cbn [noImgOpen] in Hpre. apply andb_true_iff in Hpre as [Hc Hpre].
    rewrite string_app_cons. cbn [search].
    assert (matchHere (String c (pre +:+ s)) = None) as ->.
    { unfold matchHere, lit_img. cbn [literal].
      destruct (Ascii.eqb_spec "<" c) as [<-|Hne]; [|done].
      destruct pre as [|d pre]; [done|]. simpl in Hc.
      rewrite string_app_cons. cbn [literal].
      rewrite Ascii.eqb_sym. by apply negb_true_iff in Hc as ->. }
    by rewrite (IH Hpre).
Qed.

End regexp_simple_tag.

(** ** The loops *)

(** Unfolds the monad of [result] in the goal and the hypotheses. *)
Ltac result_simpl :=
  unfold mret, result_ret, mbind, result_bind in *; simpl in *.

Lemma imageURLs_fold (ms : list regexp.found) (acc : list string) :
  fold_left
    (λ imageURLs match_,
       match match_ !! 1%nat with
       | Some url => imageURLs ++ [url]
       | None => imageURLs
       end)
    ((λ m, [regexp.group0 m; regexp.group1 m]) <$> ms) acc
  = acc ++ (regexp.group1 <$> ms).
Proof.
  revert acc. induction ms as [|m ms IH]; intros acc; simpl.
  - by rewrite app_nil_r.
  - by rewrite IH, <- app_assoc.
Qed.

Lemma imageURLs_eq v :
  imageURLs v =
    regexp.group1 <$>
      regexp.allMatches (S (String.length (feedItem.ContentHTML v)))
        (feedItem.ContentHTML v).
Proof.
  unfold imageURLs. by rewrite FindAllStringSubmatch_all, imageURLs_fold.
Qed.

Lemma imageURLs_head v :
  imageURLs v !! 0%nat = regexp.group1 <$> regexp.search (feedItem.ContentHTML v).
Proof.
  rewrite imageURLs_eq, allMatches_S.
  by destruct (regexp.search (feedItem.ContentHTML v)).
Qed.

Lemma rangeAuthors_eq authors i names :
  length names = (i + length authors)%nat →
  rangeAuthors i authors names = take i names ++ (Name <$> authors).
Proof.
  revert i names. induction authors as [|a authors IH]; intros i names Hlen.
  - simpl in *. rewrite app_nil_r, take_ge; [done|lia].
  - cbn [rangeAuthors]. simpl in Hlen. rewrite IH.
    + rewrite (take_S_r _ _ (Name a)).
      * rewrite take_insert_ge by lia. by rewrite <- app_assoc.
      * apply list_lookup_insert_eq. lia.
    + rewrite length_insert. lia.
Qed.

Lemma authorNames_eq v : authorNames v = Name <$> feedItem.Authors v.
Proof.
  unfold authorNames. rewrite rangeAuthors_eq; [done|].
  by rewrite length_replicate.
Qed.

Lemma concat_cons_app sep p x rest :
  String.concat sep ((p +:+ x) :: rest) = p +:+ String.concat sep (x :: rest).
Proof. destruct rest; simpl; [done|]. by rewrite string_app_assoc. Qed.

Lemma Join_concat elems sep : strings.Join elems sep = String.concat sep elems.
Proof.
  destruct elems as [|e rest]; [done|]. destruct rest as [|e' rest]; [done|].
  unfold strings.Join. generalize (e' :: rest). clear. intros rest.
  revert e. induction rest as [|x rest IH]; intros e; [done|].
  cbn [fold_left]. rewrite IH, concat_cons_app.
  by rewrite string_app_assoc.
Qed.

Lemma video_entryOf imageProxy v :
  video imageProxy v =
    match entryOf imageProxy v with
    | Some entry => Returned entry
    | None => Panicked (IndexOutOfRange 0 0)
    end.
Proof.
  unfold video, entryOf, index. rewrite imageURLs_head.
  destruct (regexp.search (feedItem.ContentHTML v)) as [m|] eqn:Hm; simpl.
  - by rewrite authorNames_eq, Join_concat.
  - rewrite imageURLs_eq, allMatches_S, Hm. done.
Qed.

Lemma rangeItems_eq imageProxy items videos :
  rangeItems imageProxy items videos =
    match mapM (entryOf imageProxy) items with
    | Some entries => Returned (videos ++ entries)
    | None => Panicked (IndexOutOfRange 0 0)
    end.
Proof.
  revert videos. induction items as [|v items IH]; intros videos.
  - simpl. by rewrite app_nil_r.
  - cbn [rangeItems]. rewrite video_entryOf. cbn [mapM].
    destruct (entryOf imageProxy v) as [entry|]; [|done]. simpl.
    rewrite IH. destruct (mapM (entryOf imageProxy) items); simpl; [|done].
    by rewrite <- app_assoc.
Qed.

Lemma video_of_occurrence imageProxy v m' :
  regexp.occursIn m' (feedItem.ContentHTML v) →
  ∃ m, regexp.search (feedItem.ContentHTML v) = Some m ∧
    video imageProxy v = Returned {|
      bilibiliVideo.ThumbnailUrl := imageProxy +:+ regexp.group1 m;
      bilibiliVideo.Title := feedItem.Title v;
      bilibiliVideo.Url := feedItem.URL v;
      bilibiliVideo.Author :=
        String.concat ", " (Name <$> feedItem.Authors v);
      bilibiliVideo.AuthorUrl := feedItem.URL v;
      bilibiliVideo.TimePosted := feedItem.DatePublished v;
    |}.
Proof.
  intros (m & Hm & _)%search_leftmost_first. exists m. split; [done|].
  rewrite video_entryOf. unfold entryOf. by rewrite Hm.
Qed.

Lemma video_Returned imageProxy v entry :
  video imageProxy v = Returned entry →
  ∃ m, regexp.search (feedItem.ContentHTML v) = Some m ∧
    entry = {|
      bilibiliVideo.ThumbnailUrl := imageProxy +:+ regexp.group1 m;
      bilibiliVideo.Title := feedItem.Title v;
      bilibiliVideo.Url := feedItem.URL v;
      bilibiliVideo.Author :=
        String.concat ", " (Name <$> feedItem.Authors v);
      bilibiliVideo.AuthorUrl := feedItem.URL v;
      bilibiliVideo.TimePosted := feedItem.DatePublished v;
    |}.
Proof.
  rewrite video_entryOf. unfold entryOf.
  destruct (regexp.search (feedItem.ContentHTML v)) as [m|]; [|done].
  intros [= <-]. by exists m.
Qed.

(** An item panics exactly when the pattern does not occur in its HTML. *)
Lemma video_panics_iff imageProxy v :
  video imageProxy v = Panicked (IndexOutOfRange 0 0) ↔
  ∀ m, ¬ regexp.occursIn m (feedItem.ContentHTML v).
Proof.
  rewrite <- search_None, video_entryOf. unfold entryOf.
  by destruct (regexp.search (feedItem.ContentHTML v)).
Qed.

Lemma mapM_app {A B} (f : A → option B) (l1 l2 : list A) :
  mapM f (l1 ++ l2) = (k1 ← mapM f l1; k2 ← mapM f l2; Some (k1 ++ k2)).
Proof.
  induction l1 as [|x l1 IH]; simpl.
  - by destruct (mapM f l2).
  - destruct (f x); simpl; [|done]. rewrite IH.
    destruct (mapM f l1); simpl; [|done]. by destruct (mapM f l2).
Qed.

Lemma failedCount_cons_failed r e srcs :
  failedCount ((r, Some e) :: srcs) = failedCount srcs + 1.
Proof.
  unfold failedCount. rewrite filter_cons_True by (simpl; eauto).
  simpl length. lia.
Qed.

Lemma failedCount_cons_ok r srcs :
  failedCount ((r, None) :: srcs) = failedCount srcs.
Proof.
  unfold failedCount. rewrite filter_cons_False; [done|].
  simpl. by intros [? ?].
Qed.

Lemma merged_cons_failed imageProxy r e srcs :
  merged imageProxy ((r, Some e) :: srcs) = merged imageProxy srcs.
Proof. reflexivity. Qed.

Lemma merged_cons_ok imageProxy r srcs :
  merged imageProxy ((r, None) :: srcs) =
    (k1 ← mapM (entryOf imageProxy) (bilibiliFeedResponseJson.Items r);
     k2 ← merged imageProxy srcs; Some (k1 ++ k2)).
Proof. unfold merged. rewrite bind_cons. apply mapM_app. Qed.

(** Whenever the loop over the responses completes, it has appended the
    merged collection of the sources it visited and counted those whose
    error slot is set. *)
Lemma rangeResponses_Returned RSSHubUrls errs imageProxy i rs videos failed
    videos' failed' :
  rangeResponses RSSHubUrls errs imageProxy i rs videos failed
    = Returned (videos', failed') →
  (length rs ≤ length (drop i errs))%nat ∧
  ∃ ms, merged imageProxy (zip rs (drop i errs)) = Some ms ∧
    videos' = videos ++ ms ∧
    failed' = failed + failedCount (zip rs (drop i errs)).
Proof.
  revert i videos failed.
  induction rs as [|r rs IH]; intros i videos failed.
  - intros [= <- <-]. split; [simpl; lia|]. exists []. simpl.
    split_and!; [done|by rewrite app_nil_r|unfold failedCount; simpl; lia].
  - cbn [rangeResponses]. unfold index.
    destruct (errs !! i) as [e|] eqn:He; [|done]. simpl.
    rewrite (drop_S _ _ _ He). destruct e as [e|].
    + destruct (RSSHubUrls !! i); [|done]. simpl. intros Hr.
      destruct (IH _ _ _ Hr) as (Hlen & ms & Hms & -> & ->).
      split; [simpl; lia|]. exists ms. simpl zip.
      rewrite merged_cons_failed, failedCount_cons_failed.
      split_and!; [done|done|lia].
    + rewrite rangeItems_eq.
      destruct (mapM (entryOf imageProxy) (bilibiliFeedResponseJson.Items r))
        as [k1|] eqn:Hk1; [|done]. simpl. intros Hr.
      destruct (IH _ _ _ Hr) as (Hlen & ms & Hms & -> & ->).
      split; [simpl; lia|]. exists (k1 ++ ms). simpl zip.
      rewrite merged_cons_ok, Hk1, failedCount_cons_ok. simpl. rewrite Hms. simpl.
      split_and!; [done|by rewrite app_assoc|done].
Qed.

(** When every slot the loop reads exists, the loop completes exactly
    when every item of every source without an error has an entry. *)
Lemma rangeResponses_eq RSSHubUrls errs imageProxy i rs videos failed :
  (i + length rs ≤ length errs)%nat →
  (i + length rs ≤ length RSSHubUrls)%nat →
  rangeResponses RSSHubUrls errs imageProxy i rs videos failed =
    match merged imageProxy (zip rs (drop i errs)) with
    | Some ms =>
        Returned (videos ++ ms, failed + failedCount (zip rs (drop i errs)))
    | None => Panicked (IndexOutOfRange 0 0)
    end.
Proof.
  revert i videos failed.
  induction rs as [|r rs IH]; intros i videos failed Herrs Hurls.
  - simpl. rewrite app_nil_r. unfold failedCount. simpl.
    unfold mret, result_ret. do 2 f_equal. lia.
  - simpl in Herrs, Hurls. cbn [rangeResponses]. unfold index.
    destruct (lookup_lt_is_Some_2 errs i ltac:(lia)) as [e He].
    destruct (lookup_lt_is_Some_2 RSSHubUrls i ltac:(lia)) as [u Hu].
    rewrite He, (drop_S _ _ _ He). simpl. destruct e as [e|].
    + rewrite Hu. simpl. rewrite IH by lia.
      rewrite merged_cons_failed, failedCount_cons_failed.
      destruct (merged _ _); [|done]. do 2 f_equal. lia.
    + rewrite rangeItems_eq, merged_cons_ok, failedCount_cons_ok.
      destruct (mapM (entryOf imageProxy) (bilibiliFeedResponseJson.Items r))
        as [k1|]; [|done]. simpl. rewrite IH by lia.
      destruct (merged _ _); [|done]. simpl. by rewrite app_assoc.
Qed.

(** ** The aggregation *)

Section aggregation_facts.

Context (Request : Type).
Context (http_NewRequest : string → string → option Request * option errors.error).
Context (workerPoolDo : Z → list (option Request) → poolResult).
Context (errNoContent errPartialContent : errors.error).
Context {sorter : sort.Sorter}.

Abbreviation fetch :=
  (fetchBilibiliChannelUploads Request http_NewRequest workerPoolDo
     errNoContent errPartialContent).
Abbreviation resultOf RSSHubUrls :=
  (workerPoolDo 30 (requests Request http_NewRequest RSSHubUrls)).

Lemma requests_fold RSSHubUrls (acc : list (option Request)) :
  fold_left
    (λ requests feedUrl,
       let '(request, _) := http_NewRequest "GET" feedUrl in
       requests ++ [request])
    RSSHubUrls acc
  = acc ++ ((λ feedUrl, (http_NewRequest "GET" feedUrl).1) <$> RSSHubUrls).
Proof.
  revert acc. induction RSSHubUrls as [|u urls IH]; intros acc; simpl.
  - by rewrite app_nil_r.
  - rewrite IH. destruct (http_NewRequest "GET" u) as [request ?]. simpl.
    by rewrite <- app_assoc.
Qed.

Lemma requests_eq RSSHubUrls :
  requests Request http_NewRequest RSSHubUrls =
    (λ feedUrl, (http_NewRequest "GET" feedUrl).1) <$> RSSHubUrls.
Proof. unfold requests. by rewrite requests_fold. Qed.

Lemma sortByNewest_Permutation ms : sortByNewest ms ≡ₚ ms.
Proof. apply sort.Slice_Permutation. Qed.

Lemma sortByNewest_sorted ms : StronglySorted notOlder (sortByNewest ms).
Proof.
  pose proof (sort.Slice_sorted ms newer newer_StrictWeakOrder) as Hs.
  unfold sortByNewest. induction Hs as [|a l Hl IH Ha]; constructor; [done|].
  eapply Forall_impl; [exact Ha|]. intros b. apply newer_false.
Qed.

(** What a call that returns has returned. *)
Lemma fetch_Returned RSSHubUrls videoUrlTemplate includeShorts imageProxy
    videos e :
  fetch RSSHubUrls videoUrlTemplate includeShorts imageProxy
    = Returned (videos, e) →
  match err (resultOf RSSHubUrls) with
  | Some pe => videos = [] ∧ e = Some (fmt.Errorf_w_v errNoContent pe)
  | None =>
      ∃ ms, merged imageProxy (sources (resultOf RSSHubUrls)) = Some ms ∧
        match ms with
        | [] => videos = [] ∧ e = Some errNoContent
        | _ =>
            let failed := failedCount (sources (resultOf RSSHubUrls)) in
            videos = sortByNewest ms ∧
            e = if failed >? 0
                then Some (fmt.Errorf_missing_videos errPartialContent failed)
                else None
        end
  end.
Proof.
  unfold fetchBilibiliChannelUploads. intros H.
  destruct (err (resultOf RSSHubUrls)) as [pe|];
    [result_simpl; by simplify_eq|].
  destruct (rangeResponses _ _ _ _ _ _ _) as [[ms failed]|] eqn:Hr; [|done].
  apply rangeResponses_Returned in Hr as (_ & ms' & Hms & -> & ->).
  rewrite drop_0 in Hms. rewrite drop_0, Z.add_0_l in H.
  fold (sources (resultOf RSSHubUrls)) in *. exists ms'. split; [exact Hms|].
  destruct ms' as [|m ms']; [result_simpl; by simplify_eq|].
  cbn in H. destruct (failedCount _ >? 0); result_simpl; by simplify_eq.
Qed.

(** What a call returns when the pool kept its contract. *)
Lemma fetch_aligned RSSHubUrls videoUrlTemplate includeShorts imageProxy :
  aligned RSSHubUrls (resultOf RSSHubUrls) →
  fetch RSSHubUrls videoUrlTemplate includeShorts imageProxy =
    match err (resultOf RSSHubUrls) with
    | Some pe => Returned ([], Some (fmt.Errorf_w_v errNoContent pe))
    | None =>
        match merged imageProxy (sources (resultOf RSSHubUrls)) with
        | None => Panicked (IndexOutOfRange 0 0)
        | Some [] => Returned ([], Some errNoContent)
        | Some ms =>
            let failed := failedCount (sources (resultOf RSSHubUrls)) in
            Returned
              (sortByNewest ms,
               if failed >? 0
               then Some (fmt.Errorf_missing_videos errPartialContent failed)
               else None)
        end
    end.
Proof.
  intros [Hr He]. unfold fetchBilibiliChannelUploads.
  destruct (err (resultOf RSSHubUrls)) as [pe|]; [done|].
  rewrite rangeResponses_eq by (simpl; lia). rewrite drop_0.
  fold (sources (resultOf RSSHubUrls)).
  destruct (merged _ _) as [[|m ms]|]; simpl; [done| |done].
  rewrite Z.add_0_l. by destruct (failedCount _ >? 0).
Qed.

(** The three outcomes, when the pool kept its contract, reported no
    error of its own, and every item of a source without an error has an
    entry. *)
Lemma fetch_three_outcomes RSSHubUrls videoUrlTemplate includeShorts
    imageProxy ms :
  aligned RSSHubUrls (resultOf RSSHubUrls) →
  err (resultOf RSSHubUrls) = None →
  merged imageProxy (sources (resultOf RSSHubUrls)) = Some ms →
  let failed := failedCount (sources (resultOf RSSHubUrls)) in
  let result := fetch RSSHubUrls videoUrlTemplate includeShorts imageProxy in
  (ms = [] → result = Returned ([], Some errNoContent)) ∧
  (ms ≠ [] → failed = 0 → result = Returned (sortByNewest ms, None)) ∧
  (ms ≠ [] → 1 ≤ failed →
   result = Returned
     (sortByNewest ms,
      Some (fmt.Errorf_missing_videos errPartialContent failed))).
Proof.
  intros Hal Herr Hms failed result. unfold result.
  rewrite (fetch_aligned _ _ _ _ Hal), Herr, Hms. fold failed.
  split_and!.
  - by intros ->.
  - intros Hne Hk. destruct ms; [done|]. cbv zeta. by rewrite Hk.
  - intros Hne Hk. destruct ms; [done|]. cbv zeta.
    by replace (failed >? 0) with true by lia.
Qed.

Lemma fetch_sorted RSSHubUrls videoUrlTemplate includeShorts imageProxy
    videos e :
  fetch RSSHubUrls videoUrlTemplate includeShorts imageProxy
    = Returned (videos, e) →
  StronglySorted notOlder videos.
Proof.
  intros H%fetch_Returned.
  destruct (err (resultOf RSSHubUrls)) as [pe|].
  - destruct H as [-> _]. constructor.
  - destruct H as ([|m ms] & _ & H).
    + destruct H as [-> _]. constructor.
    + destruct H as [-> _]. apply sortByNewest_sorted.
Qed.

Lemma merged_contributions imageProxy srcs ms :
  merged imageProxy srcs = Some ms →
  ∃ cs, Forall2 (contributes imageProxy) srcs cs ∧ ms = concat cs.
Proof.
  revert ms. induction srcs as [|[r [e|]] srcs IH]; intros ms.
  - intros [= <-]. by exists [].
  - rewrite merged_cons_failed. intros (cs & Hcs & ->)%IH.
    exists ([] :: cs). split; [|done]. by constructor.
  - rewrite merged_cons_ok.
    destruct (mapM _ (bilibiliFeedResponseJson.Items r)) as [k1|] eqn:Hk1;
      [|done]. simpl.
    destruct (merged imageProxy srcs) as [k2|]; [|done]. simpl.
    intros [= <-]. destruct (IH _ eq_refl) as (cs & Hcs & ->).
    exists (k1 :: cs). split; [|done]. by constructor.
Qed.

Lemma merged_length imageProxy srcs ms :
  merged imageProxy srcs = Some ms →
  length ms = sum_list_with (λ s, length (rawItems s)) srcs.
Proof.
  unfold merged. intros <-%length_mapM.
  induction srcs as [|s srcs IH]; [done|].
  rewrite bind_cons, length_app, IH. done.
Qed.

End aggregation_facts.

(** * A concrete setting *)

(** ** Insertion sort meets the contract of [sort.Slice] *)

Section insertion_sort.
Context {A : Type} (less : A → A → bool).

Lemma insert_Permutation x sorted : sort.insert less x sorted ≡ₚ x :: sorted.
Proof.
  induction sorted as [|y sorted IH]; simpl; [done|].
  destruct (less x y); [|done].
  rewrite IH. apply Permutation_swap.
Qed.

Lemma fold_insert_Permutation x acc :
  fold_left (λ sorted a, sort.insert less a sorted) x acc ≡ₚ x ++ acc.
Proof.
  revert acc. induction x as [|a x IH]; intros acc; simpl; [done|].
  rewrite IH, insert_Permutation. by rewrite Permutation_middle.
Qed.

Lemma insertionSort_Permutation x : sort.insertionSort x less ≡ₚ x.
Proof.
  unfold sort.insertionSort.
  rewrite reverse_Permutation, fold_insert_Permutation. by rewrite app_nil_r.
Qed.

Lemma StronglySorted_reverse (R : relation A) l :
  StronglySorted R l → StronglySorted (flip R) (reverse l).
Proof.
  induction 1 as [|x l Hl IH Hx]; [constructor|].
  rewrite reverse_cons. apply StronglySorted_app; split_and!.
  - intros a b Ha Hb. apply list_elem_of_singleton in Hb as ->.
    rewrite elem_of_reverse in Ha. unfold flip.
    rewrite Forall_forall in Hx. by apply Hx.
  - done.
  - repeat constructor.
Qed.

Hypothesis Hless : sort.StrictWeakOrder less.

Lemma less_asym a b : less a b = true → less b a = false.
Proof.
  intros Hab. destruct (less b a) eqn:Hba; [|done].
  pose proof (sort.less_trans less Hless _ _ _ Hab Hba) as Haa.
  by rewrite (sort.less_irrefl less Hless) in Haa.
Qed.

Lemma insert_sorted x sorted :
  StronglySorted (λ a b, less a b = false) sorted →
  StronglySorted (λ a b, less a b = false) (sort.insert less x sorted).
Proof.
  induction 1 as [|y sorted Hs IH Hy]; simpl; [repeat constructor|].
  destruct (less x y) eqn:Hxy.
  - constructor; [done|].
    rewrite insert_Permutation. constructor; [by apply less_asym|done].
  - constructor; [by constructor|].
    constructor; [done|].
    eapply Forall_impl; [exact Hy|]. intros z Hyz.
    by eapply (sort.less_incomparable_trans less Hless).
Qed.

Lemma fold_insert_sorted x acc :
  StronglySorted (λ a b, less a b = false) acc →
  StronglySorted (λ a b, less a b = false)
    (fold_left (λ sorted a, sort.insert less a sorted) x acc).
Proof.
  revert acc. induction x as [|a x IH]; intros acc Hacc; simpl; [done|].
  by apply IH, insert_sorted.
Qed.

Lemma insertionSort_sorted x :
  StronglySorted (λ a b, less b a = false) (sort.insertionSort x less).
Proof.
  unfold sort.insertionSort.
  apply (StronglySorted_reverse (λ a b, less a b = false)).
  apply fold_insert_sorted. constructor.
Qed.

End insertion_sort.

Instance insertionSorter : sort.Sorter := {|
  sort.Slice := @sort.insertionSort;
  sort.Slice_Permutation A x less := insertionSort_Permutation less x;
  sort.Slice_sorted A x less H := insertionSort_sorted less H x;
|}.

(** ** Feeds, pool and widget base

    Five feeds behind a pool that answers from a table, the sentinel
    errors with texts of their own, a widget base that keeps the title,
    the cache duration and the last error, and insertion sort for
    [sort.Slice]. *)

Module scenario.
Import errors.

Definition q : string := regexp.lit_quote.

Definition img (url : string) : string :=
  "<img src=" +:+ q +:+ url +:+ q +:+ ">".

Definition at_ (h m : Z) : time.Time :=
  {| time.sec := 1700000000 + 3600 * h + 60 * m; time.nsec := 0;
     time.offset := 28800 |}.

Definition item (id title html : string) (t : time.Time)
    (authors : list string) : feedItem.t :=
  {| feedItem.ID := id;
     feedItem.URL := "https://www.bilibili.com/video/" +:+ id;
     feedItem.Title := title;
     feedItem.ContentHTML := html;
     feedItem.DatePublished := t;
     feedItem.Authors := (λ n, {| Name := n |}) <$> authors |}.

Definition feed (items : list feedItem.t) : bilibiliFeedResponseJson.t :=
  {| bilibiliFeedResponseJson.Version := "https://jsonfeed.org/version/1.1";
     bilibiliFeedResponseJson.Title := "uploads";
     bilibiliFeedResponseJson.HomePageURL := "https://space.bilibili.com";
     bilibiliFeedResponseJson.Description := "";
     bilibiliFeedResponseJson.Language := "zh-cn";
     bilibiliFeedResponseJson.Items := items |}.

Definition noFeed : bilibiliFeedResponseJson.t :=
  {| bilibiliFeedResponseJson.Version := "";
     bilibiliFeedResponseJson.Title := "";
     bilibiliFeedResponseJson.HomePageURL := "";
     bilibiliFeedResponseJson.Description := "";
     bilibiliFeedResponseJson.Language := "";
     bilibiliFeedResponseJson.Items := [] |}.

Definition a1 : feedItem.t :=
  item "BV1a1" "first of A" ("<p>" +:+ img "//i0.hdslb.com/a1.jpg" +:+ img "//i0.hdslb.com/a1b.jpg" +:+ "</p>")
    (at_ 10 0) ["Alice"; "Bob"].
Definition a2 : feedItem.t :=
  item "BV1a2" "second of A" (img "//i0.hdslb.com/a2.jpg") (at_ 9 0) ["Alice"].
Definition c1 : feedItem.t :=
  item "BV1c1" "only of C" (img "//i0.hdslb.com/c1.jpg") (at_ 11 0) [].
Definition lazy : feedItem.t :=
  item "BV1f1" "lazy image"
    ("<img src=" +:+ q +:+ "placeholder.png" +:+ q +:+ " data-src=" +:+ q
       +:+ "real.jpg" +:+ q +:+ ">")
    (at_ 8 0) ["Frank"].
Definition odd : feedItem.t :=
  item "BV1g1" "odd query" (img "http://x/?src=" +:+ img "b.jpg") (at_ 7 0)
    ["Grace"].
Definition d1 : feedItem.t :=
  item "BV1d1" "text only" "<p>no picture</p>" (at_ 12 0) ["Dan"].

(** A request is the URL it was built from; a URL with a space in it does
    not parse. *)
Definition Request : Type := string.

Fixpoint hasSpace (s : string) : bool :=
  match s with
  | EmptyString => false
  | String c s' => Ascii.eqb c " " || hasSpace s'
  end.

Definition NewRequest (method url : string) : option Request * option error :=
  if hasSpace url then (None, Some (errorString "invalid character in host name"))
  else (Some url, None).

Definition serve (request : option Request)
    : bilibiliFeedResponseJson.t * option error :=
  match request with
  | None => (noFeed, Some (errorString "nil request"))
  | Some url =>
      if bool_decide (url = "https://rsshub.app/bilibili/user/video/A")
      then (feed [a1; a2], None)
      else if bool_decide (url = "https://rsshub.app/bilibili/user/video/C")
      then (feed [c1], None)
      else if bool_decide (url = "https://rsshub.app/bilibili/user/video/D")
      then (feed [d1], None)
      else if bool_decide (url = "https://rsshub.app/bilibili/user/video/E")
      then (feed [], None)
      else (noFeed, Some (errorString "unexpected status code 404"))
  end.

Definition pool (workers : Z) (requests : list (option Request)) : poolResult :=
  {| responses := fst ∘ serve <$> requests;
     errs := snd ∘ serve <$> requests;
     err := None |}.

Definition errNoContent : error := errorString "failed to retrieve any content".
Definition errPartialContent : error :=
  errorString "failed to retrieve some of the content".

Record widgetBase : Type := {
  title : string;
  cacheDuration : Z;
  lastError : option error;
}.

Definition withTitle (b : widgetBase) (t : string) : widgetBase :=
  {| title := t; cacheDuration := cacheDuration b; lastError := lastError b |}.

Definition withCacheDuration (b : widgetBase) (d : Z) : widgetBase :=
  {| title := title b; cacheDuration := d; lastError := lastError b |}.

(** The update goes on after no error and after an error that wraps
    [errPartialContent]. *)
Definition canContinue (b : widgetBase) (e : option error) : widgetBase * bool :=
  let b' := {| title := title b; cacheDuration := cacheDuration b; lastError := e |} in
  match e with
  | None => (b', true)
  | Some e =>
      (b', bool_decide (Unwrap e = Some errPartialContent))
  end.

Definition proxy : string := "//wsrv.nl/?url=".

Definition fetch (urls : list string) :=
  fetchBilibiliChannelUploads Request NewRequest pool errNoContent
    errPartialContent (sorter := insertionSorter) urls "" false proxy.

Definition urlA : string := "https://rsshub.app/bilibili/user/video/A".
Definition urlB : string := "https://rsshub.app/bilibili/user/video/B".
Definition urlC : string := "https://rsshub.app/bilibili/user/video/C".
Definition urlD : string := "https://rsshub.app/bilibili/user/video/D".
Definition urlE : string := "https://rsshub.app/bilibili/user/video/E".


(** The entry expected for an item. *)
Definition shown (v : feedItem.t) (thumbnail author : string)
    : bilibiliVideo.t :=
  {| bilibiliVideo.ThumbnailUrl := thumbnail;
     bilibiliVideo.Title := feedItem.Title v;
     bilibiliVideo.Url := feedItem.URL v;
     bilibiliVideo.Author := author;
     bilibiliVideo.AuthorUrl := feedItem.URL v;
     bilibiliVideo.TimePosted := feedItem.DatePublished v |}.

(** A widget as the configuration leaves it: no limit, no proxy. *)
Definition configured (urls : list string) (limit : Z)
    : bilibiliVideosWidget widgetBase :=
  {| base := {| title := ""; cacheDuration := 0; lastError := None |};
     Videos := []; VideoUrlTemplate := ""; Style := "grid-cards";
     CollapseAfter := 0; CollapseAfterRows := 0; RSSHubUrls := urls;
     Limit := limit; IncludeShorts := false; ImageProxy := "" |}.

End scenario.


(** ** The scenarios of the specification *)

(** Source A returns two items (10:00 and 09:00), source B fails, source
    C returns one item (11:00): the partial-content error for one channel
    and the three entries, newest first. *)
Example scenario_partial_content :
  scenario.fetch [scenario.urlA; scenario.urlB; scenario.urlC] =
    Returned
      ([scenario.shown scenario.c1 "//wsrv.nl/?url=//i0.hdslb.com/c1.jpg" "";
        scenario.shown scenario.a1 "//wsrv.nl/?url=//i0.hdslb.com/a1.jpg"
          "Alice, Bob";
        scenario.shown scenario.a2 "//wsrv.nl/?url=//i0.hdslb.com/a2.jpg"
          "Alice"],
       Some (errors.wrapError
               "failed to retrieve some of the content: missing videos from 1 channels"
               scenario.errPartialContent)).
Proof. vm_compute. reflexivity. Qed.

(** Two sources, both without items: the no-content error and nothing
    else. *)
Example scenario_no_content :
  scenario.fetch [scenario.urlE; scenario.urlE] =
    Returned ([], Some scenario.errNoContent).
Proof. vm_compute. reflexivity. Qed.

(** No source at all: the no-content error. *)
Example scenario_no_source :
  scenario.fetch [] = Returned ([], Some scenario.errNoContent).
Proof. vm_compute. reflexivity. Qed.

(** Every source answers: no error. *)
Example scenario_success :
  scenario.fetch [scenario.urlA; scenario.urlC] =
    Returned
      ([scenario.shown scenario.c1 "//wsrv.nl/?url=//i0.hdslb.com/c1.jpg" "";
        scenario.shown scenario.a1 "//wsrv.nl/?url=//i0.hdslb.com/a1.jpg"
          "Alice, Bob";
        scenario.shown scenario.a2 "//wsrv.nl/?url=//i0.hdslb.com/a2.jpg"
          "Alice"],
       None).
Proof. vm_compute. reflexivity. Qed.

(** * The claims *)

(** C1 (the code departs from the claim). The claim promises one of the
    three outcomes for every list of source URLs. With source A
    delivering two items, source B failing and source D delivering one
    item whose HTML holds no image tag, the call does not return: it
    panics at [imageURLs[0]]. Lemma [fetch_three_outcomes] gives the three
    outcomes for the runs in which every item has an image, and
    [Errorf_missing_videos_inj] reads the failed count back from the
    error. *)
Theorem C1_no_outcome_for_item_without_image :
  scenario.fetch [scenario.urlA; scenario.urlB; scenario.urlD]
    = Panicked (IndexOutOfRange 0 0).
Proof. vm_compute. reflexivity. Qed.

Section claim_C2.

Context (Request : Type).
Context (http_NewRequest : string → string → option Request * option errors.error).
Context (workerPoolDo : Z → list (option Request) → poolResult).
Context (errNoContent errPartialContent : errors.error).
Context {sorter : sort.Sorter}.

(** C2. Whatever collection the aggregation returns is sorted newest
    first: no video in it was posted after one that stands before it. *)
Theorem C2_returned_videos_newest_first RSSHubUrls videoUrlTemplate
    includeShorts imageProxy videos e :
  fetchBilibiliChannelUploads Request http_NewRequest workerPoolDo
    errNoContent errPartialContent
    RSSHubUrls videoUrlTemplate includeShorts imageProxy = Returned (videos, e) →
  StronglySorted notOlder videos.
Proof. apply fetch_sorted. Qed.

End claim_C2.

Lemma C2_witness :
  ∃ videos e,
    scenario.fetch [scenario.urlA; scenario.urlB; scenario.urlC]
      = Returned (videos, e) ∧
    bilibiliVideo.Title <$> videos = ["only of C"; "first of A"; "second of A"] ∧
    StronglySorted notOlder videos.
Proof.
  eexists _, _. split; [vm_compute; reflexivity|]. split; [reflexivity|].
  eapply (C2_returned_videos_newest_first scenario.Request scenario.NewRequest
            scenario.pool scenario.errNoContent scenario.errPartialContent
            [scenario.urlA; scenario.urlB; scenario.urlC] "" false
            scenario.proxy).
  vm_compute. reflexivity.
Defined.

(** C3 (the code departs from the claim). The claim asks that an item
    without an image is handled. The item [d1], whose HTML is a paragraph
    of text, yields no match, so [imageURLs] is empty and [imageURLs[0]]
    panics; the aggregation over its feed panics with it. Lemma
    [video_panics_iff] says that this happens exactly for the items in
    whose HTML the pattern does not occur. *)
Theorem C3_item_without_image_is_fatal :
  regexp.FindAllStringSubmatch (feedItem.ContentHTML scenario.d1) (-1) = [] ∧
  imageURLs scenario.d1 = [] ∧
  video scenario.proxy scenario.d1 = Panicked (IndexOutOfRange 0 0) ∧
  scenario.fetch [scenario.urlD] = Panicked (IndexOutOfRange 0 0).
Proof. split_and!; vm_compute; reflexivity. Qed.

(** C4, as stated, fails. The first image tag of [odd] has the URL
    [http://x/?src=]; the class [[^>]+] runs on to the [src=] that ends
    this URL, and the group captures the text between the two tags. In
    [lazy], whose only tag has a [src] and then a [data-src] attribute, the
    value of [data-src] is captured. *)
Lemma C4_counterexample :
  (∃ entry, video scenario.proxy scenario.odd = Returned entry ∧
     bilibiliVideo.ThumbnailUrl entry = scenario.proxy +:+ "><img src=" ∧
     bilibiliVideo.ThumbnailUrl entry ≠ scenario.proxy +:+ "http://x/?src=") ∧
  (∃ entry, video scenario.proxy scenario.lazy = Returned entry ∧
     bilibiliVideo.ThumbnailUrl entry = scenario.proxy +:+ "real.jpg" ∧
     bilibiliVideo.ThumbnailUrl entry ≠ scenario.proxy +:+ "placeholder.png").
Proof.
  split; eexists; (split; [vm_compute; reflexivity|]); split;
    [reflexivity|discriminate|reflexivity|discriminate].
Qed.

(** C4, amended. For an item whose HTML holds an occurrence of the
    pattern, the thumbnail is the proxy prefix followed, unchanged, by the
    group of the first occurrence in document order: no occurrence starts
    before it, and none that starts with it gives more bytes to [[^>]+]
    (by [occursIn_unique] there is one such occurrence). In particular,
    when the HTML is text in which every [<] is followed by a byte other
    than [i], then a tag [<img ATTRS src=QURLQ TAIL>] with URL free of
    quotes and of [=] and TAIL free of [=], then anything (a second tag,
    say), the thumbnail is the proxy prefix followed by URL. *)
Theorem C4_thumbnail_is_first_match imageProxy v :
  (∀ m0, regexp.occursIn m0 (feedItem.ContentHTML v) →
   ∃ m entry,
     video imageProxy v = Returned entry ∧
     bilibiliVideo.ThumbnailUrl entry = imageProxy +:+ regexp.group1 m ∧
     regexp.occursIn m (feedItem.ContentHTML v) ∧
     ∀ m', regexp.occursIn m' (feedItem.ContentHTML v) →
       (String.length (regexp.before m) ≤ String.length (regexp.before m'))%nat ∧
       (String.length (regexp.before m) = String.length (regexp.before m') →
        String.length (regexp.attrs m') ≤ String.length (regexp.attrs m))%nat) ∧
  (∀ pre a url tail rest,
   feedItem.ContentHTML v =
     pre +:+ regexp.lit_img +:+ a +:+ regexp.lit_src +:+ url
       +:+ regexp.lit_quote +:+ tail +:+ String ">" rest →
   regexp.noImgOpen pre = true →
   a ≠ "" → regexp.all (negb ∘ regexp.isGT) a = true →
   url ≠ "" → regexp.all (negb ∘ regexp.isQuote) url = true →
   regexp.all (negb ∘ regexp.isEq) url = true →
   regexp.all (negb ∘ regexp.isEq) tail = true →
   ∃ entry,
     video imageProxy v = Returned entry ∧
     bilibiliVideo.ThumbnailUrl entry = imageProxy +:+ url).
Proof.
  split.
  - intros m0 H0.
    destruct (video_of_occurrence imageProxy v m0 H0) as (m & Hm & Hv).
    eexists m, _. split; [exact Hv|]. split; [done|].
    split; [by apply search_sound|].
    intros m' (m2 & Hm2 & Hle)%search_leftmost_first.
    rewrite Hm in Hm2. by injection Hm2 as <-.
  - intros pre a url tail rest Hhtml Hpre Ha0 Ha Hu0 Hu Hurl Htail.
    pose proof (search_skip pre _ a url (tail +:+ String ">" rest) Hpre
      (matchHere_simple_tag a url tail (String ">" rest)
         Ha0 Ha Hu0 Hu Hurl Htail (or_intror (ex_intro _ rest eq_refl))))
      as Hs.
    rewrite <- Hhtml in Hs.
    eexists. rewrite video_entryOf. unfold entryOf. rewrite Hs.
    split; reflexivity.
Qed.

Lemma C4_witness :
  ∃ entry,
    video scenario.proxy scenario.a1 = Returned entry ∧
    bilibiliVideo.ThumbnailUrl entry = "//wsrv.nl/?url=//i0.hdslb.com/a1.jpg" ∧
    bilibiliVideo.ThumbnailUrl entry
      = scenario.proxy +:+
          regexp.group1
            (regexp.Found "<p>" " " "//i0.hdslb.com/a1.jpg"
               (">" +:+ scenario.img "//i0.hdslb.com/a1b.jpg" +:+ "</p>")).
Proof.
  destruct (C4_thumbnail_is_first_match scenario.proxy scenario.a1) as [H1 H2].
  destruct (H2 "<p>" " " "//i0.hdslb.com/a1.jpg" ""
              (scenario.img "//i0.hdslb.com/a1b.jpg" +:+ "</p>"))
    as (entry & Hv & Ht); [reflexivity| reflexivity|done|reflexivity|done
                           |reflexivity|reflexivity|reflexivity|].
  destruct (H1 (regexp.Found "<p>" " " "//i0.hdslb.com/a1.jpg"
                  (">" +:+ scenario.img "//i0.hdslb.com/a1b.jpg" +:+ "</p>")))
    as (m & entry' & Hv' & Ht' & _).
  { split; [reflexivity|]. by repeat split. }
  exists entry. split; [exact Hv|]. split; [exact Ht|].
  rewrite Hv in Hv'. injection Hv' as <-. rewrite Ht.
  reflexivity.
Defined.

Section claim_C5.

Context (Request : Type).
Context (http_NewRequest : string → string → option Request * option errors.error).
Context (workerPoolDo : Z → list (option Request) → poolResult).
Context (errNoContent errPartialContent : errors.error).
Context {sorter : sort.Sorter}.

(** C5. In what the aggregation returns, every source has contributed
    nothing (always so when its error slot is set) or the entries of all
    its raw items, and the number of entries is at most the number of raw
    items of the sources without an error. *)
Theorem C5_sources_contribute_all_or_nothing RSSHubUrls videoUrlTemplate
    includeShorts imageProxy videos e :
  fetchBilibiliChannelUploads Request http_NewRequest workerPoolDo
    errNoContent errPartialContent
    RSSHubUrls videoUrlTemplate includeShorts imageProxy = Returned (videos, e) →
  (length videos ≤
     sum_list_with (λ s, length (rawItems s))
       (sources (workerPoolDo 30 (requests Request http_NewRequest RSSHubUrls))))%nat ∧
  (videos = [] ∨
   ∃ cs,
     Forall2 (contributes imageProxy) (sources (workerPoolDo 30 (requests Request http_NewRequest RSSHubUrls))) cs ∧
     videos ≡ₚ concat cs).
Proof.
  intros H%fetch_Returned.
  destruct (err (workerPoolDo 30 (requests Request http_NewRequest RSSHubUrls))) as [pe|].
  { destruct H as [-> _]. split; [simpl; lia|by left]. }
  destruct H as (ms & Hms & H).
  pose proof (merged_length _ _ _ Hms) as Hlen.
  destruct (merged_contributions _ _ _ Hms) as (cs & Hcs & Hcat).
  destruct ms as [|m ms].
  { destruct H as [-> _]. split; [simpl; lia|by left]. }
  destruct H as [-> _]. split.
  - by rewrite sortByNewest_Permutation, Hlen.
  - right. exists cs. split; [done|].
    by rewrite sortByNewest_Permutation, Hcat.
Qed.

End claim_C5.

Lemma C5_witness :
  ∃ videos e,
    scenario.fetch [scenario.urlA; scenario.urlB; scenario.urlC]
      = Returned (videos, e) ∧
    (length videos ≤ 3)%nat ∧
    (videos = [] ∨
     ∃ cs, Forall2 (contributes scenario.proxy)
             [(scenario.feed [scenario.a1; scenario.a2], None);
              (scenario.noFeed,
               Some (errors.errorString "unexpected status code 404"));
              (scenario.feed [scenario.c1], None)] cs ∧
           videos ≡ₚ concat cs).
Proof.
  eexists _, _. split; [vm_compute; reflexivity|].
  eapply (C5_sources_contribute_all_or_nothing scenario.Request
            scenario.NewRequest scenario.pool scenario.errNoContent
            scenario.errPartialContent
            [scenario.urlA; scenario.urlB; scenario.urlC] "" false
            scenario.proxy).
  vm_compute. reflexivity.
Defined.

Section claim_C6.

Context (Request : Type).
Context (http_NewRequest : string → string → option Request * option errors.error).
Context (workerPoolDo : Z → list (option Request) → poolResult).
Context (errNoContent errPartialContent : errors.error).
Context {sorter : sort.Sorter}.

(** C6. The include-shorts flag changes nothing: the aggregation returns
    the same videos and the same error for either value. *)
Theorem C6_includeShorts_is_ignored RSSHubUrls videoUrlTemplate imageProxy
    (includeShorts includeShorts' : bool) :
  fetchBilibiliChannelUploads Request http_NewRequest workerPoolDo
    errNoContent errPartialContent
    RSSHubUrls videoUrlTemplate includeShorts imageProxy =
  fetchBilibiliChannelUploads Request http_NewRequest workerPoolDo
    errNoContent errPartialContent
    RSSHubUrls videoUrlTemplate includeShorts' imageProxy.
Proof. reflexivity. Qed.

End claim_C6.

(** C7. Whenever an entry is produced for an item, its author string is
    the names of the item's authors, in their order, joined with a comma
    and a space. An entry is produced for every item whose HTML holds an
    occurrence of the pattern, also when the item has no author; its
    author string is then empty. *)
Theorem C7_author_is_names_joined imageProxy v :
  (∀ entry,
     video imageProxy v = Returned entry →
     bilibiliVideo.Author entry
       = String.concat ", " (Name <$> feedItem.Authors v)) ∧
  (∀ m,
     regexp.occursIn m (feedItem.ContentHTML v) →
     ∃ entry,
       video imageProxy v = Returned entry ∧
       bilibiliVideo.Author entry
         = String.concat ", " (Name <$> feedItem.Authors v) ∧
       (feedItem.Authors v = [] → bilibiliVideo.Author entry = "")).
Proof.
  split.
  - by intros entry (m & _ & ->)%video_Returned.
  - intros m (m1 & _ & Hv)%(video_of_occurrence imageProxy).
    eexists. split; [exact Hv|]. split; [done|]. by intros ->.
Qed.

Lemma C7_witness :
  (∃ entry,
     video scenario.proxy scenario.c1 = Returned entry ∧
     bilibiliVideo.Author entry = "") ∧
  (∃ entry,
     video scenario.proxy scenario.a1 = Returned entry ∧
     bilibiliVideo.Author entry = "Alice, Bob").
Proof.
  split.
  - destruct (C7_author_is_names_joined scenario.proxy scenario.c1)
      as [_ H].
    destruct (H (regexp.Found "" " " "//i0.hdslb.com/c1.jpg" ">"))
      as (entry & Hv & _ & H0).
    { split; [reflexivity|]. by repeat split. }
    exists entry. split; [exact Hv|]. by apply H0.
  - destruct (C7_author_is_names_joined scenario.proxy scenario.a1)
      as [_ H].
    destruct (H (regexp.Found "<p>" " " "//i0.hdslb.com/a1.jpg"
                   (">" +:+ scenario.img "//i0.hdslb.com/a1b.jpg" +:+ "</p>")))
      as (entry & Hv & Ha & _).
    { split; [reflexivity|]. by repeat split. }
    exists entry. split; [exact Hv|]. exact Ha.
Defined.

(** C8. Whenever an entry is produced for an item, it carries the item's
    title and publication time unchanged and has the item's URL both as
    its link and as its author link. An entry is produced for every item
    whose HTML holds an occurrence of the pattern. *)
Theorem C8_title_time_and_links_carried_over imageProxy v :
  (∀ entry,
     video imageProxy v = Returned entry →
     bilibiliVideo.Title entry = feedItem.Title v ∧
     bilibiliVideo.TimePosted entry = feedItem.DatePublished v ∧
     bilibiliVideo.Url entry = feedItem.URL v ∧
     bilibiliVideo.AuthorUrl entry = feedItem.URL v) ∧
  (∀ m,
     regexp.occursIn m (feedItem.ContentHTML v) →
     ∃ entry, video imageProxy v = Returned entry).
Proof.
  split.
  - by intros entry (m & _ & ->)%video_Returned.
  - intros m (m1 & _ & Hv)%(video_of_occurrence imageProxy). eauto.
Qed.

Lemma C8_witness :
  ∃ entry,
    video scenario.proxy scenario.a2 = Returned entry ∧
    bilibiliVideo.Title entry = "second of A" ∧
    bilibiliVideo.TimePosted entry = scenario.at_ 9 0 ∧
    bilibiliVideo.Url entry = "https://www.bilibili.com/video/BV1a2" ∧
    bilibiliVideo.AuthorUrl entry = "https://www.bilibili.com/video/BV1a2".
Proof.
  destruct (C8_title_time_and_links_carried_over scenario.proxy scenario.a2)
    as [Hfields Hentry].
  destruct (Hentry (regexp.Found "" " " "//i0.hdslb.com/a2.jpg" ">"))
    as (entry & Hv).
  { split; [reflexivity|]. by repeat split. }
  exists entry. split; [exact Hv|]. exact (Hfields entry Hv).
Defined.

(** C9 (the code departs from the claim). The claim lets a malformed URL
    pass through the first loop and surface as a fetch error of its
    source. For the URL [http://a b.com/feed], which does not parse,
    [http.NewRequest] returns a nil request and an error; the loop drops
    the error ([request, _ := ...]) and appends the nil request. So the
    pool is handed a nil pointer at the index of that URL, not the URL,
    and whatever the call returns is decided by the pool's answer to that
    list: the error that tells of the malformed URL is gone before the
    pool is called. *)
Theorem C9_malformed_url_reaches_the_pool_as_nil :
  scenario.NewRequest "GET" "http://a b.com/feed" =
    (None, Some (errors.errorString "invalid character in host name")) ∧
  requests scenario.Request scenario.NewRequest
    [scenario.urlA; "http://a b.com/feed"; scenario.urlC] =
    [Some scenario.urlA; None; Some scenario.urlC] ∧
  (∀ (pool pool' : Z → list (option scenario.Request) → poolResult)
     errNoContent errPartialContent (sorter : sort.Sorter)
     videoUrlTemplate includeShorts imageProxy,
     pool 30 [Some scenario.urlA; None; Some scenario.urlC] =
     pool' 30 [Some scenario.urlA; None; Some scenario.urlC] →
     fetchBilibiliChannelUploads scenario.Request scenario.NewRequest pool
       errNoContent errPartialContent
       [scenario.urlA; "http://a b.com/feed"; scenario.urlC]
       videoUrlTemplate includeShorts imageProxy =
     fetchBilibiliChannelUploads scenario.Request scenario.NewRequest pool'
       errNoContent errPartialContent
       [scenario.urlA; "http://a b.com/feed"; scenario.urlC]
       videoUrlTemplate includeShorts imageProxy).
Proof.
  split_and!; [reflexivity|reflexivity|].
  intros pool pool' ?????? Hpool. unfold fetchBilibiliChannelUploads.
  change (requests scenario.Request scenario.NewRequest
            [scenario.urlA; "http://a b.com/feed"; scenario.urlC])
    with [Some scenario.urlA; None; Some scenario.urlC].
  by rewrite Hpool.
Qed.

Section claim_C10.

Context (Request : Type).
Context (http_NewRequest : string → string → option Request * option errors.error).
Context (workerPoolDo : Z → list (option Request) → poolResult).
Context (errNoContent errPartialContent : errors.error).
Context (widgetBase : Type).
Context (withTitle : widgetBase → string → widgetBase).
Context (withCacheDuration : widgetBase → Z → widgetBase).
Context (canContinueUpdateAfterHandlingErr :
  widgetBase → option errors.error → widgetBase * bool).
Context (context_Context : Type).
Context {sorter : sort.Sorter}.

Lemma initialize_Limit widget :
  Limit _ (initialize widgetBase withTitle withCacheDuration widget).1 =
    if Limit _ widget <=? 0 then 25 else Limit _ widget.
Proof.
  unfold initialize. cbn [fst].
  repeat match goal with
         | |- context [if ?b then _ else _] =>
             lazymatch b with
             | Limit _ _ <=? 0 => fail
             | _ => destruct b
             end
         end; cbn; by destruct (_ <=? 0).
Qed.

(** C10. After [initialize] the limit is at least 1: a configured limit
    of zero or less has become 25, any other is kept. On a widget whose
    limit is not negative, as it is from [initialize] on, an [update]
    that gets videos from the aggregation and is let go on by the base
    returns, leaves the limit as it is, and stores the first [Limit] of
    the returned videos (all of them if there are fewer): at most [Limit]
    videos, none of them posted before a video that was cut off. *)
Theorem C10_limit_caps_the_stored_videos widget w (ctx : context_Context) :
  (let w0 := (initialize widgetBase withTitle withCacheDuration widget).1 in
   1 ≤ Limit _ w0 ∧
   (Limit _ widget ≤ 0 → Limit _ w0 = 25) ∧
   (0 < Limit _ widget → Limit _ w0 = Limit _ widget)) ∧
  (0 ≤ Limit _ w →
   ∀ videos e base',
     fetchBilibiliChannelUploads Request http_NewRequest workerPoolDo
       errNoContent errPartialContent (RSSHubUrls _ w) (VideoUrlTemplate _ w)
       (IncludeShorts _ w) (ImageProxy _ w) = Returned (videos, e) →
     canContinueUpdateAfterHandlingErr (base _ w) e = (base', true) →
     ∃ w',
       update Request http_NewRequest workerPoolDo errNoContent
         errPartialContent widgetBase canContinueUpdateAfterHandlingErr
         context_Context w ctx = Returned w' ∧
       Limit _ w' = Limit _ w ∧
       Videos _ w' = take (Z.to_nat (Limit _ w)) videos ∧
       Z.of_nat (length (Videos _ w')) ≤ Limit _ w ∧
       ∀ a b, a ∈ Videos _ w' → b ∈ drop (Z.to_nat (Limit _ w)) videos →
              notOlder a b).
Proof.
  split.
  - intros w0. pose proof (initialize_Limit widget) as HL. fold w0 in HL.
    rewrite HL. destruct (Z.leb_spec (Limit _ widget) 0); lia.
  - intros Hpos videos e base' Hfetch Hcan.
    assert (Hsorted := fetch_sorted _ _ _ _ _ _ _ _ _ _ _ Hfetch).
    exists (with_Videos _ (take (Z.to_nat (Limit _ w)) videos)
              (with_base _ base' w)).
    split_and!.
    + unfold update. rewrite Hfetch. result_simpl. rewrite Hcan. simpl.
      destruct (Z.of_nat (length videos) >? Limit _ w) eqn:Hgt.
      * unfold sliceTo.
        destruct (Z.ltb_spec (Limit _ w) 0) as [?|_]; [lia|done].
      * rewrite take_ge by lia. done.
    + done.
    + done.
    + simpl. rewrite length_take. lia.
    + simpl. intros a b Ha Hb.
      rewrite <- (take_drop (Z.to_nat (Limit _ w)) videos) in Hsorted.
      by eapply (StronglySorted_app_1_elem_of _ _ _ a b Hsorted).
Qed.

End claim_C10.

Lemma C10_witness :
  Limit _ (initialize _ scenario.withTitle scenario.withCacheDuration
             (scenario.configured [] 0)).1 = 25 ∧
  ∃ w',
    update scenario.Request scenario.NewRequest scenario.pool
      scenario.errNoContent scenario.errPartialContent scenario.widgetBase
      scenario.canContinue unit
      (initialize _ scenario.withTitle scenario.withCacheDuration
         (scenario.configured
            [scenario.urlA; scenario.urlB; scenario.urlC] 2)).1 tt
      = Returned w' ∧
    Limit _ w' = 2 ∧
    bilibiliVideo.Title <$> Videos _ w' = ["only of C"; "first of A"].
Proof.
  destruct (C10_limit_caps_the_stored_videos scenario.Request
              scenario.NewRequest scenario.pool scenario.errNoContent
              scenario.errPartialContent scenario.widgetBase
              scenario.withTitle scenario.withCacheDuration
              scenario.canContinue unit
              (scenario.configured [] 0)
              (initialize _ scenario.withTitle scenario.withCacheDuration
                 (scenario.configured
                    [scenario.urlA; scenario.urlB; scenario.urlC] 2)).1 tt)
    as [(_ & H25 & _) Hupdate].
  split; [by apply H25|].
  edestruct Hupdate as (w' & Hw' & HL & HV & _).
  { done. }
  { vm_compute. reflexivity. }
  { vm_compute. reflexivity. }
  exists w'. split; [exact Hw'|]. split; [exact HL|].
  rewrite HV. vm_compute. reflexivity.
Defined.

(** * Further properties of the code *)

(** ** The image URLs of an item *)

Lemma allMatches_denote n s :
  Forall (λ m, regexp.denotes (regexp.attrs m) (regexp.group1 m))
    (regexp.allMatches n s).
Proof.
  revert s. induction n as [|n IH]; intros s; [constructor|].
  rewrite allMatches_S. destruct (regexp.search s) as [m|] eqn:Hm;
    [|constructor].
  constructor; [|apply IH]. by apply search_sound in Hm as [_ ?].
Qed.

(** X1. Every match that [FindAllStringSubmatch] returns for the pattern
    has two elements, so the test [len(match) > 1] never drops a match:
    [imageURLs] has one URL per match. *)
Theorem X1_every_match_gives_a_url (v : feedItem.t) :
  Forall (λ match_ : list string, length match_ = 2%nat)
    (regexp.FindAllStringSubmatch (feedItem.ContentHTML v) (-1)) ∧
  length (imageURLs v) =
    length (regexp.FindAllStringSubmatch (feedItem.ContentHTML v) (-1)).
Proof.
  rewrite imageURLs_eq, FindAllStringSubmatch_all, !length_fmap.
  split; [|done]. apply Forall_fmap, Forall_true. done.
Qed.

(** X2. No URL in [imageURLs] is empty or holds a double quote; hence the
    thumbnail of every entry is the proxy prefix followed by a text that
    is not empty and holds no double quote. *)
Theorem X2_image_urls_not_empty imageProxy (v : feedItem.t) :
  Forall (λ url, url ≠ "" ∧ regexp.all (negb ∘ regexp.isQuote) url = true)
    (imageURLs v) ∧
  (∀ entry,
     video imageProxy v = Returned entry →
     ∃ url,
       bilibiliVideo.ThumbnailUrl entry = imageProxy +:+ url ∧
       url ≠ "" ∧ regexp.all (negb ∘ regexp.isQuote) url = true).
Proof.
  split.
  - rewrite imageURLs_eq. apply Forall_fmap.
    eapply Forall_impl; [apply allMatches_denote|].
    by intros m (_ & _ & ? & ?).
  - intros entry (m & Hm & ->)%video_Returned.
    apply search_sound in Hm as [_ (_ & _ & ? & ?)]. by exists (regexp.group1 m).
Qed.

Lemma X2_witness :
  ∃ entry url,
    video scenario.proxy scenario.lazy = Returned entry ∧
    bilibiliVideo.ThumbnailUrl entry = scenario.proxy +:+ url ∧
    url ≠ "".
Proof.
  destruct (X2_image_urls_not_empty scenario.proxy scenario.lazy) as [_ H].
  edestruct H as (url & Ht & Hne & _); [vm_compute; reflexivity|].
  eexists _, url. split; [vm_compute; reflexivity|]. by split.
Defined.

(** X3. The extraction of an item panics, with index 0 out of range of an
    empty slice, exactly when the pattern does not occur in the item's
    HTML, and produces an entry exactly when it occurs. *)
Theorem X3_item_panics_iff_no_occurrence imageProxy (v : feedItem.t) :
  (video imageProxy v = Panicked (IndexOutOfRange 0 0) ↔
   ∀ m, ¬ regexp.occursIn m (feedItem.ContentHTML v)) ∧
  ((∃ entry, video imageProxy v = Returned entry) ↔
   ∃ m, regexp.occursIn m (feedItem.ContentHTML v)).
Proof.
  split; [apply video_panics_iff|]. split.
  - intros [entry (m & Hm & _)%video_Returned]. exists m.
    by apply search_sound.
  - intros [m (m1 & _ & Hv)%(video_of_occurrence imageProxy)]. eauto.
Qed.

(** ** The aggregation beyond its three outcomes *)

Lemma rangeResponses_failed_in_range RSSHubUrls errs imageProxy i rs videos
    failed r :
  rangeResponses RSSHubUrls errs imageProxy i rs videos failed = Returned r →
  ∀ j e, (i ≤ j < i + length rs)%nat → errs !! j = Some (Some e) →
         (j < length RSSHubUrls)%nat.
Proof.
  revert i videos failed.
  induction rs as [|r0 rs IH]; intros i videos failed Hr j e Hj He;
    [simpl in Hj; lia|].
  cbn [rangeResponses] in Hr. unfold index in Hr.
  destruct (errs !! i) as [ei|] eqn:Hi; [|done]. simpl in Hr.
  destruct (decide (j = i)) as [->|Hne].
  - rewrite Hi in He. injection He as ->.
    destruct (RSSHubUrls !! i) eqn:Hu; [|done].
    by apply lookup_lt_Some in Hu.
  - simpl in Hj. destruct ei as [ei|].
    + destruct (RSSHubUrls !! i); [|done]. simpl in Hr.
      eapply (IH _ _ _ Hr j e); [lia|done].
    + destruct (rangeItems _ _ _) as [videos'|]; [|done]. simpl in Hr.
      eapply (IH _ _ _ Hr j e); [lia|done].
Qed.

(** A pool that reports an error of its own and hands back a feed whose
    only item has no image. *)
Module coverage.

Definition failingPool (workers : Z) (requests : list (option scenario.Request))
    : poolResult :=
  {| responses := [scenario.feed [scenario.d1]];
     errs := [None];
     err := Some (errors.errorString "context canceled") |}.

End coverage.

Section aggregation_more.

Context (Request : Type).
Context (http_NewRequest : string → string → option Request * option errors.error).
Context (workerPoolDo : Z → list (option Request) → poolResult).
Context (errNoContent errPartialContent : errors.error).
Context {sorter : sort.Sorter}.

(** X4. When the pool reports an error of its own, the call returns no
    videos and an error that wraps [errNoContent] and whose text is the
    text of [errNoContent], a colon and the text of the pool's error. The
    responses are not looked at: the call returns even if an item in them
    has no image. *)
Theorem X4_pool_error_is_no_content RSSHubUrls videoUrlTemplate includeShorts
    imageProxy pe :
  err (workerPoolDo 30 (requests Request http_NewRequest RSSHubUrls)) = Some pe →
  ∃ e,
    fetchBilibiliChannelUploads Request http_NewRequest workerPoolDo
      errNoContent errPartialContent
      RSSHubUrls videoUrlTemplate includeShorts imageProxy
      = Returned ([], Some e) ∧
    errors.Unwrap e = Some errNoContent ∧
    errors.Error e = errors.Error errNoContent +:+ ": " +:+ errors.Error pe.
Proof.
  intros Hpe. unfold fetchBilibiliChannelUploads. rewrite Hpe.
  by eexists.
Qed.

(** X5. A call that returns without a pool error has read an error slot
    for every response, and a URL for every source whose error slot is
    set: with fewer error slots than responses, or with a failed source
    beyond the URLs, the call panics. *)
Theorem X5_returned_call_found_its_slots RSSHubUrls videoUrlTemplate
    includeShorts imageProxy videos e :
  fetchBilibiliChannelUploads Request http_NewRequest workerPoolDo
    errNoContent errPartialContent
    RSSHubUrls videoUrlTemplate includeShorts imageProxy = Returned (videos, e) →
  err (workerPoolDo 30 (requests Request http_NewRequest RSSHubUrls)) = None →
  let out := workerPoolDo 30 (requests Request http_NewRequest RSSHubUrls) in
  (length (responses out) ≤ length (errs out))%nat ∧
  ∀ (i : nat) ei,
    (i < length (responses out))%nat → errs out !! i = Some (Some ei) →
    (i < length RSSHubUrls)%nat.
Proof.
  intros H Herr. cbv zeta. unfold fetchBilibiliChannelUploads in H.
  cbv zeta in H. rewrite Herr in H.
  destruct (rangeResponses _ _ _ _ _ _ _) as [[ms failed]|] eqn:Hr; [|done].
  split.
  - apply rangeResponses_Returned in Hr as [Hlen _].
    by rewrite drop_0 in Hlen.
  - intros i ei Hi Hei.
    eapply (rangeResponses_failed_in_range _ _ _ _ _ _ _ _ Hr i ei); [lia|done].
Qed.

(** X6. When the pool kept its contract and reported no error, and every
    item of the sources without an error has an entry, the call returns:
    the no-content error without videos if there is no entry at all,
    otherwise the sorted entries with no error if no source failed and
    with the partial-content error for [failed] channels if [failed]
    sources did. *)
Theorem X6_the_three_outcomes RSSHubUrls videoUrlTemplate includeShorts
    imageProxy ms :
  let out := workerPoolDo 30 (requests Request http_NewRequest RSSHubUrls) in
  aligned RSSHubUrls out →
  err out = None →
  merged imageProxy (sources out) = Some ms →
  let failed := failedCount (sources out) in
  fetchBilibiliChannelUploads Request http_NewRequest workerPoolDo
    errNoContent errPartialContent
    RSSHubUrls videoUrlTemplate includeShorts imageProxy =
  Returned
    (if decide (ms = []) then ([], Some errNoContent)
     else (sortByNewest ms,
           if decide (failed = 0) then None
           else Some (fmt.Errorf_missing_videos errPartialContent failed))).
Proof.
  intros out Hal Herr Hms failed.
  destruct (fetch_three_outcomes Request http_NewRequest workerPoolDo
              errNoContent errPartialContent RSSHubUrls videoUrlTemplate
              includeShorts imageProxy ms Hal Herr Hms) as (H0 & H1 & H2).
  fold out failed in H0, H1, H2.
  destruct (decide (ms = [])) as [Hnil|Hne]; [by apply H0|].
  destruct (decide (failed = 0)) as [Hz|Hnz]; [by apply H1|].
  apply H2; [done|]. unfold failed, failedCount in *. lia.
Qed.

(** X7. A nil error is returned only with videos and only when the pool
    reported no error and no source has its error slot set. *)
Theorem X7_nil_error_means_complete RSSHubUrls videoUrlTemplate includeShorts
    imageProxy videos :
  fetchBilibiliChannelUploads Request http_NewRequest workerPoolDo
    errNoContent errPartialContent
    RSSHubUrls videoUrlTemplate includeShorts imageProxy = Returned (videos, None) →
  let out := workerPoolDo 30 (requests Request http_NewRequest RSSHubUrls) in
  videos ≠ [] ∧ err out = None ∧
  Forall (λ s : source, s.2 = None) (sources out).
Proof.
  intros H%fetch_Returned out. fold out in H.
  destruct (err out) as [pe|]; [by destruct H|].
  destruct H as ([|m ms] & Hms & H); [by destruct H|].
  destruct H as [-> He]. split_and!; [|done|].
  - intros Hnil. pose proof (sortByNewest_Permutation (m :: ms)) as Hp.
    rewrite Hnil in Hp. by apply Permutation_nil_l in Hp.
  - destruct (failedCount (sources out) >? 0) eqn:Hf; [done|].
    unfold failedCount in Hf.
    assert (filter (λ s : source, is_Some (s.2)) (sources out) = []) as Hnone.
    { apply length_zero_iff_nil. lia. }
    apply Forall_forall. intros s Hs.
    destruct (s.2) as [es|] eqn:Hs2; [|done].
    destruct (filter_nil_not_elem_of _ _ s Hnone); [|done].
    rewrite Hs2. eauto.
Qed.

(** X8. When the pool kept its contract and reported no error, and no
    source contributes a raw item (each one failed or came back without
    items; so also with no URL at all), the call returns the no-content
    error and no videos. *)
Theorem X8_nothing_fetched_is_no_content RSSHubUrls videoUrlTemplate
    includeShorts imageProxy :
  let out := workerPoolDo 30 (requests Request http_NewRequest RSSHubUrls) in
  aligned RSSHubUrls out →
  err out = None →
  Forall (λ s, rawItems s = []) (sources out) →
  fetchBilibiliChannelUploads Request http_NewRequest workerPoolDo
    errNoContent errPartialContent
    RSSHubUrls videoUrlTemplate includeShorts imageProxy =
  Returned ([], Some errNoContent).
Proof.
  intros out Hal Herr Hnone.
  rewrite (fetch_aligned _ _ _ _ _ _ _ _ _ Hal). fold out. rewrite Herr.
  assert (sources out ≫= rawItems = []) as Hraw.
  { induction Hnone as [|s srcs Hs _ IH]; [done|].
    by rewrite bind_cons, Hs, IH. }
  unfold merged. by rewrite Hraw.
Qed.

End aggregation_more.

Lemma X4_witness :
  ∃ e,
    fetchBilibiliChannelUploads scenario.Request scenario.NewRequest
      coverage.failingPool scenario.errNoContent scenario.errPartialContent
      [scenario.urlD] "" false scenario.proxy = Returned ([], Some e) ∧
    errors.Unwrap e = Some scenario.errNoContent ∧
    errors.Error e = "failed to retrieve any content: context canceled".
Proof.
  destruct (X4_pool_error_is_no_content scenario.Request scenario.NewRequest
              coverage.failingPool scenario.errNoContent
              scenario.errPartialContent [scenario.urlD] "" false
              scenario.proxy (errors.errorString "context canceled") eq_refl)
    as (e & He & Hu & Hm).
  exists e. split; [exact He|]. split; [exact Hu|]. exact Hm.
Defined.

Lemma X5_witness :
  (length (responses (scenario.pool 30
             (requests scenario.Request scenario.NewRequest
                [scenario.urlA; scenario.urlB; scenario.urlC])))
   ≤ length (errs (scenario.pool 30
             (requests scenario.Request scenario.NewRequest
                [scenario.urlA; scenario.urlB; scenario.urlC]))))%nat.
Proof.
  edestruct (X5_returned_call_found_its_slots scenario.Request
               scenario.NewRequest scenario.pool scenario.errNoContent
               scenario.errPartialContent
               [scenario.urlA; scenario.urlB; scenario.urlC] "" false
               scenario.proxy) as [Hlen _].
  - vm_compute. reflexivity.
  - reflexivity.
  - exact Hlen.
Defined.

Lemma X6_witness :
  ∃ videos,
    scenario.fetch [scenario.urlA; scenario.urlB; scenario.urlC] =
      Returned
        (videos,
         Some (fmt.Errorf_missing_videos scenario.errPartialContent 1)) ∧
    length videos = 3%nat.
Proof.
  eexists. split.
  - etransitivity.
    + eapply (X6_the_three_outcomes scenario.Request scenario.NewRequest
                scenario.pool scenario.errNoContent scenario.errPartialContent
                [scenario.urlA; scenario.urlB; scenario.urlC] "" false
                scenario.proxy).
      * split; reflexivity.
      * reflexivity.
      * vm_compute. reflexivity.
    + vm_compute. reflexivity.
  - reflexivity.
Defined.

Lemma X7_witness :
  Forall (λ s : source, s.2 = None)
    (sources (scenario.pool 30
       (requests scenario.Request scenario.NewRequest
          [scenario.urlA; scenario.urlC]))).
Proof.
  edestruct (X7_nil_error_means_complete scenario.Request scenario.NewRequest
               scenario.pool scenario.errNoContent scenario.errPartialContent
               [scenario.urlA; scenario.urlC] "" false scenario.proxy)
    as (_ & _ & Hall).
  - vm_compute. reflexivity.
  - exact Hall.
Defined.

Lemma X8_witness :
  scenario.fetch [scenario.urlE; scenario.urlB] =
    Returned ([], Some scenario.errNoContent).
Proof.
  apply (X8_nothing_fetched_is_no_content scenario.Request scenario.NewRequest
           scenario.pool scenario.errNoContent scenario.errPartialContent
           [scenario.urlE; scenario.urlB] "" false scenario.proxy).
  - split; reflexivity.
  - reflexivity.
  - repeat constructor.
Defined.

Section aggregation_union.

Context (Request : Type).
Context (http_NewRequest : string → string → option Request * option errors.error).
Context (workerPoolDo : Z → list (option Request) → poolResult).
Context (errNoContent errPartialContent : errors.error).
Context {sorter : sort.Sorter}.

Lemma merged_elem_of imageProxy srcs ms entry :
  merged imageProxy srcs = Some ms →
  entry ∈ ms ↔
  ∃ s item, s ∈ srcs ∧ item ∈ rawItems s ∧
            video imageProxy item = Returned entry.
Proof.
  unfold merged. intros Hms%mapM_Some. split.
  - intros [i Hi]%list_elem_of_lookup.
    destruct (Forall2_lookup_r _ _ _ _ _ Hms Hi) as (item & Hitem & He).
    apply list_elem_of_lookup_2, list_elem_of_bind in Hitem
      as (s & Hin & Hs).
    exists s, item. split_and!; [done|done|].
    by rewrite video_entryOf, He.
  - intros (s & item & Hs & Hin & Hv).
    assert (item ∈ srcs ≫= rawItems) as [i Hi]%list_elem_of_lookup
      by (apply list_elem_of_bind; eauto).
    destruct (Forall2_lookup_l _ _ _ _ _ Hms Hi) as (entry' & Hentry & He).
    rewrite video_entryOf, He in Hv. injection Hv as <-.
    by eapply list_elem_of_lookup_2.
Qed.

(** X9. When the call returns videos, they are exactly the entries of the
    raw items of the sources without an error: every returned video is
    the entry of such an item, every such item has its entry among them,
    and there are as many videos as such items. *)
Theorem X9_videos_are_the_union RSSHubUrls videoUrlTemplate includeShorts
    imageProxy videos e :
  fetchBilibiliChannelUploads Request http_NewRequest workerPoolDo
    errNoContent errPartialContent
    RSSHubUrls videoUrlTemplate includeShorts imageProxy = Returned (videos, e) →
  videos ≠ [] →
  let out := workerPoolDo 30 (requests Request http_NewRequest RSSHubUrls) in
  length videos = sum_list_with (λ s, length (rawItems s)) (sources out) ∧
  ∀ entry,
    entry ∈ videos ↔
    ∃ s item, s ∈ sources out ∧ item ∈ rawItems s ∧
              video imageProxy item = Returned entry.
Proof.
  intros H%fetch_Returned Hne out. fold out in H.
  destruct (err out) as [pe|]; [by destruct H|].
  destruct H as ([|m ms] & Hms & H); [by destruct H|].
  destruct H as [-> _]. split.
  - by rewrite sortByNewest_Permutation, (merged_length _ _ _ Hms).
  - intros entry. rewrite sortByNewest_Permutation.
    by apply merged_elem_of.
Qed.

End aggregation_union.

Lemma X9_witness :
  ∃ videos e,
    scenario.fetch [scenario.urlA; scenario.urlB; scenario.urlC]
      = Returned (videos, e) ∧
    length videos = 3%nat.
Proof.
  eexists _, _. split; [vm_compute; reflexivity|].
  eapply (X9_videos_are_the_union scenario.Request scenario.NewRequest
            scenario.pool scenario.errNoContent scenario.errPartialContent
            [scenario.urlA; scenario.urlB; scenario.urlC] "" false
            scenario.proxy).
  - vm_compute. reflexivity.
  - done.
Defined.

(** ** [sortByNewest] *)

(** X10. For videos no two of which were posted at the same instant, the
    sorted list depends neither on the order in which the videos were
    merged nor on how [sort.Slice] sorts. *)
Theorem X10_sorted_order_is_determined (sorter sorter' : sort.Sorter)
    (ms ms' : bilibiliVideoList) :
  ms ≡ₚ ms' →
  (∀ a b, a ∈ ms → b ∈ ms →
     time.sec (bilibiliVideo.TimePosted a) = time.sec (bilibiliVideo.TimePosted b) →
     time.nsec (bilibiliVideo.TimePosted a) = time.nsec (bilibiliVideo.TimePosted b) →
     a = b) →
  @sortByNewest sorter ms = @sortByNewest sorter' ms'.
Proof.
  intros Hp Hdistinct.
  apply (StronglySorted_unique_strong notOlder).
  - intros a b Ha Hb Hab Hba.
    rewrite sortByNewest_Permutation in Ha.
    rewrite sortByNewest_Permutation, <- Hp in Hb.
    apply Hdistinct; [done|done| |]; unfold notOlder in *; simpl in *; lia.
  - apply sortByNewest_sorted.
  - apply sortByNewest_sorted.
  - by rewrite !sortByNewest_Permutation.
Qed.

Lemma X10_witness :
  @sortByNewest insertionSorter
    [scenario.shown scenario.a1 "" ""; scenario.shown scenario.c1 "" ""] =
  @sortByNewest insertionSorter
    [scenario.shown scenario.c1 "" ""; scenario.shown scenario.a1 "" ""].
Proof.
  apply X10_sorted_order_is_determined.
  - apply Permutation_swap.
  - intros a b Ha Hb.
    apply elem_of_cons in Ha as [->|Ha]; [|apply list_elem_of_singleton in Ha as ->];
      (apply elem_of_cons in Hb as [->|Hb]; [|apply list_elem_of_singleton in Hb as ->]);
      vm_compute; congruence.
Defined.

(** ** The widget: [initialize] and [update] *)

Section widget_more.

Context (Request : Type).
Context (http_NewRequest : string → string → option Request * option errors.error).
Context (workerPoolDo : Z → list (option Request) → poolResult).
Context (errNoContent errPartialContent : errors.error).
Context (widgetBase : Type).
Context (withTitle : widgetBase → string → widgetBase).
Context (withCacheDuration : widgetBase → Z → widgetBase).
Context (canContinueUpdateAfterHandlingErr :
  widgetBase → option errors.error → widgetBase * bool).
Context (context_Context : Type).
Context {sorter : sort.Sorter}.

Ltac initialize_cases :=
  unfold initialize; cbn [fst snd];
  repeat match goal with
         | |- context [if ?b then _ else _] => destruct b eqn:?
         end; cbn in *.

(** X11. [initialize] returns no error and leaves the collapse settings
    at -1 or at least 1 (a setting that already is so is kept, any other
    becomes 4 rows and 7 videos), the image proxy not empty (a non-empty
    one is kept), the base titled and given a cache duration of one hour,
    and the stored videos, the feed URLs, the style, the URL template and
    the shorts flag as they were. *)
Theorem X11_initialize_normalises widget :
  let w0 := (initialize widgetBase withTitle withCacheDuration widget).1 in
  (initialize widgetBase withTitle withCacheDuration widget).2 = None ∧
  (CollapseAfterRows _ w0 = -1 ∨ 1 ≤ CollapseAfterRows _ w0) ∧
  (CollapseAfterRows _ widget = -1 ∨ 1 ≤ CollapseAfterRows _ widget →
   CollapseAfterRows _ w0 = CollapseAfterRows _ widget) ∧
  (¬ (CollapseAfterRows _ widget = -1 ∨ 1 ≤ CollapseAfterRows _ widget) →
   CollapseAfterRows _ w0 = 4) ∧
  (CollapseAfter _ w0 = -1 ∨ 1 ≤ CollapseAfter _ w0) ∧
  (CollapseAfter _ widget = -1 ∨ 1 ≤ CollapseAfter _ widget →
   CollapseAfter _ w0 = CollapseAfter _ widget) ∧
  (¬ (CollapseAfter _ widget = -1 ∨ 1 ≤ CollapseAfter _ widget) →
   CollapseAfter _ w0 = 7) ∧
  ImageProxy _ w0 ≠ "" ∧
  (ImageProxy _ widget ≠ "" → ImageProxy _ w0 = ImageProxy _ widget) ∧
  base _ w0 =
    withCacheDuration (withTitle (base _ widget) "Videos") (3600 * 1000000000) ∧
  Videos _ w0 = Videos _ widget ∧
  RSSHubUrls _ w0 = RSSHubUrls _ widget ∧
  Style _ w0 = Style _ widget ∧
  VideoUrlTemplate _ w0 = VideoUrlTemplate _ widget ∧
  IncludeShorts _ w0 = IncludeShorts _ widget.
Proof.
  intros w0. subst w0. initialize_cases;
    repeat match goal with
           | H : bool_decide _ = _ |- _ =>
               first [apply bool_decide_eq_true in H
                     |apply bool_decide_eq_false in H]
           end;
    split_and!; try done; try lia.
Qed.

(** X12. Initialising a second time changes nothing but, possibly, the
    base: limit, collapse settings and image proxy are already in range. *)
Theorem X12_initialize_twice widget :
  ∀ b,
    with_base _ b
      (initialize widgetBase withTitle withCacheDuration
         (initialize widgetBase withTitle withCacheDuration widget).1).1 =
    with_base _ b (initialize widgetBase withTitle withCacheDuration widget).1.
Proof.
  intros b. destruct widget as [b0 vs t st ca car urls lim sh px].
  unfold initialize. cbv zeta.
  repeat (cbn [fst base Limit CollapseAfterRows CollapseAfter ImageProxy
               with_base with_Limit with_CollapseAfterRows with_CollapseAfter
               with_ImageProxy Videos VideoUrlTemplate Style RSSHubUrls
               IncludeShorts];
          match goal with
          | |- context [if ?c then _ else _] =>
              lazymatch c with
              | context [if _ then _ else _] => fail
              | _ => destruct c eqn:?
              end
          end);
    cbn [fst base Limit CollapseAfterRows CollapseAfter ImageProxy
         with_base with_Limit with_CollapseAfterRows with_CollapseAfter
         with_ImageProxy Videos VideoUrlTemplate Style RSSHubUrls
         IncludeShorts];
    try reflexivity; try congruence; try done.
Qed.

(** X13. When the worker pool reports an error of its own, an [update] of
    a widget whose limit is not negative returns: the base is handed an
    error that wraps [errNoContent]; if it stops the update, the stored
    videos stay as they were, and if it lets the update go on, they are
    replaced by no videos at all. *)
Theorem X13_update_after_pool_error w (ctx : context_Context) pe :
  err (workerPoolDo 30 (requests Request http_NewRequest (RSSHubUrls _ w)))
    = Some pe →
  0 ≤ Limit _ w →
  ∃ e b continue,
    errors.Unwrap e = Some errNoContent ∧
    canContinueUpdateAfterHandlingErr (base _ w) (Some e) = (b, continue) ∧
    update Request http_NewRequest workerPoolDo errNoContent
      errPartialContent widgetBase canContinueUpdateAfterHandlingErr
      context_Context w ctx =
    Returned (if continue then with_Videos _ [] (with_base _ b w)
              else with_base _ b w).
Proof.
  intros Herr Hlim.
  destruct (canContinueUpdateAfterHandlingErr (base _ w)
              (Some (fmt.Errorf_w_v errNoContent pe))) as [b continue] eqn:Hcan.
  exists (fmt.Errorf_w_v errNoContent pe), b, continue.
  split; [done|]. split; [done|].
  unfold update, fetchBilibiliChannelUploads. cbv zeta. rewrite Herr.
  result_simpl. rewrite Hcan. destruct continue; simpl; [|done].
  change (Z.of_nat 0) with 0.
  destruct (Z.gtb_spec 0 (Limit _ w)); [lia|done].
Qed.

(** X14. An [update] that returns leaves the configuration of the widget
    as it was and keeps what holds of the stored videos: if they were
    newest first they still are, and if they were no more than the limit
    they still are. *)
Theorem X14_update_keeps_configuration_and_order w w' (ctx : context_Context) :
  update Request http_NewRequest workerPoolDo errNoContent
    errPartialContent widgetBase canContinueUpdateAfterHandlingErr
    context_Context w ctx = Returned w' →
  (RSSHubUrls _ w' = RSSHubUrls _ w ∧
   VideoUrlTemplate _ w' = VideoUrlTemplate _ w ∧
   Style _ w' = Style _ w ∧
   CollapseAfter _ w' = CollapseAfter _ w ∧
   CollapseAfterRows _ w' = CollapseAfterRows _ w ∧
   Limit _ w' = Limit _ w ∧
   IncludeShorts _ w' = IncludeShorts _ w ∧
   ImageProxy _ w' = ImageProxy _ w) ∧
  (StronglySorted notOlder (Videos _ w) →
   StronglySorted notOlder (Videos _ w')) ∧
  (Z.of_nat (length (Videos _ w)) ≤ Limit _ w →
   Z.of_nat (length (Videos _ w')) ≤ Limit _ w').
Proof.
  unfold update. intros H.
  destruct (fetchBilibiliChannelUploads _ _ _ _ _ _ _ _ _)
    as [[videos e]|p] eqn:Hfetch; [|done].
  assert (Hsorted := fetch_sorted _ _ _ _ _ _ _ _ _ _ _ Hfetch).
  result_simpl.
  destruct (canContinueUpdateAfterHandlingErr (base _ w) e) as [b continue].
  destruct continue; simpl in H; [|by injection H as <-].
  destruct (Z.gtb_spec (Z.of_nat (length videos)) (Limit _ w)) as [Hgt|Hle].
  - unfold sliceTo in H.
    destruct (Z.ltb_spec (Limit _ w) 0) as [?|Hpos]; [done|].
    result_simpl. injection H as <-. simpl. split_and!; try done.
    + intros _.
      rewrite <- (take_drop (Z.to_nat (Limit _ w)) videos) in Hsorted.
      by apply StronglySorted_app_1_l in Hsorted.
    + intros _. rewrite length_take. lia.
  - injection H as <-. simpl. split_and!; done.
Qed.

(** X15. On a widget whose limit is negative, as a configuration that was
    not initialised may leave it, an [update] that the base lets go on
    panics at [videos[:widget.Limit]], whatever was fetched. *)
Theorem X15_negative_limit_panics w (ctx : context_Context) videos e b :
  Limit _ w < 0 →
  fetchBilibiliChannelUploads Request http_NewRequest workerPoolDo
    errNoContent errPartialContent (RSSHubUrls _ w) (VideoUrlTemplate _ w)
    (IncludeShorts _ w) (ImageProxy _ w) = Returned (videos, e) →
  canContinueUpdateAfterHandlingErr (base _ w) e = (b, true) →
  update Request http_NewRequest workerPoolDo errNoContent
    errPartialContent widgetBase canContinueUpdateAfterHandlingErr
    context_Context w ctx = Panicked (SliceBoundsOutOfRange (Limit _ w)).
Proof.
  intros Hneg Hfetch Hcan. unfold update. rewrite Hfetch. result_simpl.
  rewrite Hcan. simpl.
  destruct (Z.gtb_spec (Z.of_nat (length videos)) (Limit _ w)); [|lia].
  unfold sliceTo. destruct (Z.ltb_spec (Limit _ w) 0); [done|lia].
Qed.

End widget_more.

Lemma X13_witness :
  ∃ b,
    update scenario.Request scenario.NewRequest coverage.failingPool
      scenario.errNoContent scenario.errPartialContent scenario.widgetBase
      scenario.canContinue unit (scenario.configured [scenario.urlD] 5) tt =
    Returned (with_base _ b (scenario.configured [scenario.urlD] 5)).
Proof.
  destruct (X13_update_after_pool_error scenario.Request scenario.NewRequest
              coverage.failingPool scenario.errNoContent
              scenario.errPartialContent scenario.widgetBase
              scenario.canContinue unit
              (scenario.configured [scenario.urlD] 5) tt
              (errors.errorString "context canceled") eq_refl)
    as (e & b & continue & Hu & Hcan & Hupdate).
  { simpl. lia. }
  exists b. rewrite Hupdate.
  unfold scenario.canContinue in Hcan. rewrite Hu in Hcan.
  injection Hcan as _ <-. reflexivity.
Defined.

Lemma X14_witness :
  ∃ w',
    update scenario.Request scenario.NewRequest scenario.pool
      scenario.errNoContent scenario.errPartialContent scenario.widgetBase
      scenario.canContinue unit
      (scenario.configured [scenario.urlA; scenario.urlB; scenario.urlC] 2) tt
      = Returned w' ∧
    RSSHubUrls _ w' = [scenario.urlA; scenario.urlB; scenario.urlC] ∧
    StronglySorted notOlder (Videos _ w') ∧
    Z.of_nat (length (Videos _ w')) ≤ 2.
Proof.
  assert (∃ w',
    update scenario.Request scenario.NewRequest scenario.pool
      scenario.errNoContent scenario.errPartialContent scenario.widgetBase
      scenario.canContinue unit
      (scenario.configured [scenario.urlA; scenario.urlB; scenario.urlC] 2) tt
      = Returned w') as [w' Hw'].
  { vm_compute. eexists. reflexivity. }
  exists w'. split; [exact Hw'|].
  destruct (X14_update_keeps_configuration_and_order scenario.Request
              scenario.NewRequest scenario.pool scenario.errNoContent
              scenario.errPartialContent scenario.widgetBase
              scenario.canContinue unit
              (scenario.configured
                 [scenario.urlA; scenario.urlB; scenario.urlC] 2) w' tt Hw')
    as ((Hurls & _ & _ & _ & _ & Hlimit & _) & Hsorted & Hcapped).
  split; [exact Hurls|]. split.
  - apply Hsorted. constructor.
  - rewrite Hlimit in Hcapped. apply Hcapped. simpl. lia.
Defined.

Lemma X15_witness :
  update scenario.Request scenario.NewRequest scenario.pool
    scenario.errNoContent scenario.errPartialContent scenario.widgetBase
    scenario.canContinue unit (scenario.configured [scenario.urlA] (-1)) tt =
  Panicked (SliceBoundsOutOfRange (-1)).
Proof.
  eapply (X15_negative_limit_panics scenario.Request scenario.NewRequest
            scenario.pool scenario.errNoContent scenario.errPartialContent
            scenario.widgetBase scenario.canContinue unit
            (scenario.configured [scenario.urlA] (-1)) tt).
  - simpl. lia.
  - vm_compute. reflexivity.
  - vm_compute. reflexivity.
Defined.

(** ** The request list *)

Section request_builder.

Context (Request : Type).
Context (http_NewRequest : string → string → option Request * option errors.error).

(** X16. The first loop builds one request per URL, in the order of the
    URLs: the request at an index is the one [http.NewRequest] returned
    for the URL at that index, nil where the URL did not parse; the loop
    has no way to fail or to skip a URL. The list is handed to the pool
    as it is, and nothing else about the URLs reaches the pool. *)
Theorem X16_one_request_per_url (RSSHubUrls : list string) :
  length (requests Request http_NewRequest RSSHubUrls) = length RSSHubUrls ∧
  (∀ i : nat,
     requests Request http_NewRequest RSSHubUrls !! i =
       (λ feedUrl, (http_NewRequest "GET" feedUrl).1) <$> RSSHubUrls !! i) ∧
  (∀ (i : nat) feedUrl e,
     RSSHubUrls !! i = Some feedUrl →
     http_NewRequest "GET" feedUrl = (None, Some e) →
     requests Request http_NewRequest RSSHubUrls !! i = Some None) ∧
  (∀ (pool pool' : Z → list (option Request) → poolResult)
     errNoContent errPartialContent (sorter : sort.Sorter)
     videoUrlTemplate includeShorts imageProxy,
     pool 30 (requests Request http_NewRequest RSSHubUrls) =
     pool' 30 (requests Request http_NewRequest RSSHubUrls) →
     fetchBilibiliChannelUploads Request http_NewRequest pool errNoContent
       errPartialContent RSSHubUrls videoUrlTemplate includeShorts imageProxy =
     fetchBilibiliChannelUploads Request http_NewRequest pool' errNoContent
       errPartialContent RSSHubUrls videoUrlTemplate includeShorts imageProxy).
Proof.
  split_and!.
  - by rewrite requests_eq, length_fmap.
  - intros i. by rewrite requests_eq, list_lookup_fmap.
  - intros i feedUrl e Hi Hreq.
    by rewrite requests_eq, list_lookup_fmap, Hi; simpl; rewrite Hreq.
  - intros pool pool' ????? ? Hpool. unfold fetchBilibiliChannelUploads.
    by rewrite Hpool.
Qed.

End request_builder.

Lemma X16_witness :
  length (requests scenario.Request scenario.NewRequest
            [scenario.urlA; "http://a b.com/feed"; scenario.urlC]) = 3%nat ∧
  requests scenario.Request scenario.NewRequest
    [scenario.urlA; "http://a b.com/feed"; scenario.urlC] !! 1%nat = Some None.
Proof.
  destruct (X16_one_request_per_url scenario.Request scenario.NewRequest
              [scenario.urlA; "http://a b.com/feed"; scenario.urlC])
    as (Hlen & _ & Hnil & _).
  split; [exact Hlen|].
  by apply (Hnil 1%nat "http://a b.com/feed"
              (errors.errorString "invalid character in host name")).
Defined.
